(** * Verification of the TTS studio core: WAV encoder and job queue

    The development embeds three parts of the repository:

    - [utils/audio.ts]: [pcmToWav] and [writeString], the PCM to WAV
      container encoder, over a model of [ArrayBuffer] and [DataView]
      (bytes are [Init.Byte.byte], multi-byte fields are coqutil's
      little-endian lists, JavaScript numbers are integers, exact as
      long as they stay below 2^53 in absolute value);
    - [services/gemini.ts]: the message of the error [generateSpeech]
      rethrows from its [catch] block;
    - [pages/Home.tsx]: the job list of the [Home] component with its
      queue effect ([processQueue]) and its handlers ([handleAddToQueue],
      [handleGenerateSingle], [handleDelete], [startQueue]), as a
      transition system.  A step is a stretch of code that runs without
      suspension: a handler, one run of the effect up to its [await], or
      the continuation of an [await] when the call settles.  React runs
      the effect again after every commit that changed one of its
      dependencies [items] and [isProcessing]. *)

From Stdlib Require Import String Ascii ZArith List Bool Lia Arith DecimalString.
From Stdlib Require Import Init.Byte.
From coqutil Require Import Byte Word.LittleEndianList.
Import ListNotations.

Local Open Scope string_scope.
Local Open Scope list_scope.

(** ** Part I: the encoder, [utils/audio.ts] *)

Module Audio.

(** An [ArrayBuffer] is a fixed-length sequence of bytes, zero-initialised
    by [new ArrayBuffer(n)]. *)
Definition ArrayBuffer := list byte.

Definition newArrayBuffer (n : nat) : ArrayBuffer := repeat Byte.x00 n.

(** The result of [new Blob([buffer], { type })]: the bytes of the buffer
    and the MIME type. *)
Record Blob := mkBlob { blob_bytes : list byte; blob_type : string }.

(** Writing [bs] at byte offset [off].  Every [DataView] setter and
    [TypedArray.prototype.set] throw a [RangeError] when the write does
    not fit in the buffer: that outcome is [None]. *)
Definition store (buf : ArrayBuffer) (off : nat) (bs : list byte)
  : option ArrayBuffer :=
  if (off + length bs <=? length buf)%nat
  then Some (firstn off buf ++ bs ++ skipn (off + length bs) buf)
  else None.

(** [view.setUint8(off, v)]: the value is taken modulo 2^8. *)
Definition setUint8 (view : ArrayBuffer) (off : nat) (v : Z) :=
  store view off [byte.of_Z v].

(** [view.setUint16(off, v, true)]: the value is taken modulo 2^16 and
    written least significant byte first. *)
Definition setUint16 (view : ArrayBuffer) (off : nat) (v : Z) :=
  store view off (le_split 2 v).

(** [view.setUint32(off, v, true)]: the value is taken modulo 2^32 and
    written least significant byte first. *)
Definition setUint32 (view : ArrayBuffer) (off : nat) (v : Z) :=
  store view off (le_split 4 v).

(** [view.getUint16(off, true)] and [view.getUint32(off, true)], the
    readers a consumer of the file uses to parse the header. *)
Definition getUint16 (view : ArrayBuffer) (off : nat) : option Z :=
  if (off + 2 <=? length view)%nat
  then Some (le_combine (firstn 2 (skipn off view)))
  else None.

Definition getUint32 (view : ArrayBuffer) (off : nat) : option Z :=
  if (off + 4 <=? length view)%nat
  then Some (le_combine (firstn 4 (skipn off view)))
  else None.

(** [buf.slice(from, to)]. *)
Definition slice (buf : ArrayBuffer) (from to : nat) : list byte :=
  firstn (to - from) (skipn from buf).

(** [s.charCodeAt(i)] for every [i], in order. *)
Definition charCodes (s : string) : list Z :=
  map (fun c => Z.of_N (N_of_ascii c)) (list_ascii_of_string s).

Notation "x <- c1 ;; c2" :=
  (match c1 with Some x => c2 | None => None end)
  (at level 61, c1 at next level, right associativity).

(** [writeString(view, offset, string)]:
    [for (i = 0; i < string.length; i++)
       view.setUint8(offset + i, string.charCodeAt(i))]. *)
Fixpoint writeCodes (view : ArrayBuffer) (offset i : nat) (codes : list Z)
  : option ArrayBuffer :=
  match codes with
  | [] => Some view
  | c :: rest =>
      view' <- setUint8 view (offset + i) c ;;
      writeCodes view' offset (S i) rest
  end.

Definition writeString (view : ArrayBuffer) (offset : nat) (s : string) :=
  writeCodes view offset 0 (charCodes s).

(** [pcmToWav(pcmData, sampleRate, numChannels)].  The two numbers are
    integers and the products are exact: they are the products of the
    code, which multiplies doubles, as long as the numbers and
    [sampleRate * blockAlign] are below 2^53 in absolute value.  What is
    written into the header depends on the products; whether the function
    returns, the length of the buffer and the bytes copied do not.
    [None] stands for an exception leaving the function. *)
Definition pcmToWav (pcmData : list byte) (sampleRate numChannels : Z)
  : option Blob :=
  let bytesPerSample := 2%Z in
  let blockAlign := (numChannels * bytesPerSample)%Z in
  let byteRate := (sampleRate * blockAlign)%Z in
  let dataSize := length pcmData in
  let fileSize := (36 + Z.of_nat dataSize)%Z in
  let buffer := newArrayBuffer (44 + dataSize) in
  (* RIFF chunk *)
  view <- writeString buffer 0 "RIFF" ;;
  view <- setUint32 view 4 fileSize ;;
  view <- writeString view 8 "WAVE" ;;
  (* fmt chunk *)
  view <- writeString view 12 "fmt " ;;
  view <- setUint32 view 16 16 ;;
  view <- setUint16 view 20 1 ;;
  view <- setUint16 view 22 numChannels ;;
  view <- setUint32 view 24 sampleRate ;;
  view <- setUint32 view 28 byteRate ;;
  view <- setUint16 view 32 blockAlign ;;
  view <- setUint16 view 34 16 ;;
  (* data chunk *)
  view <- writeString view 36 "data" ;;
  view <- setUint32 view 40 (Z.of_nat dataSize) ;;
  (* new Uint8Array(buffer, 44).set(pcmData) *)
  view <- store view (44 + 0) pcmData ;;
  Some (mkBlob view "audio/wav").

(** The 44 header bytes [pcmToWav] produces, field by field. *)
Definition wavHeader (dataSize : nat) (sampleRate numChannels : Z)
  : list byte :=
  map byte.of_Z (charCodes "RIFF")
  ++ le_split 4 (36 + Z.of_nat dataSize)
  ++ map byte.of_Z (charCodes "WAVE")
  ++ map byte.of_Z (charCodes "fmt ")
  ++ le_split 4 16
  ++ le_split 2 1
  ++ le_split 2 numChannels
  ++ le_split 4 sampleRate
  ++ le_split 4 (sampleRate * (numChannels * 2))
  ++ le_split 2 (numChannels * 2)
  ++ le_split 2 16
  ++ map byte.of_Z (charCodes "data")
  ++ le_split 4 (Z.of_nat dataSize).

(** What a reader of the file finds in a buffer laid out as the WAV
    container of [pcmData] at [sampleRate] and [numChannels]. *)
Definition wavLayout (buf : ArrayBuffer) (pcmData : list byte)
    (sampleRate numChannels : Z) : Prop :=
  length buf = 44 + length pcmData
  /\ slice buf 0 4 = list_byte_of_string "RIFF"
  /\ getUint32 buf 4 = Some (36 + Z.of_nat (length pcmData))%Z
  /\ slice buf 8 12 = list_byte_of_string "WAVE"
  /\ slice buf 12 16 = list_byte_of_string "fmt "
  /\ getUint32 buf 16 = Some 16%Z
  /\ getUint16 buf 20 = Some 1%Z
  /\ getUint16 buf 22 = Some numChannels
  /\ getUint32 buf 24 = Some sampleRate
  /\ getUint32 buf 28 = Some (sampleRate * numChannels * 2)%Z
  /\ getUint16 buf 32 = Some (numChannels * 2)%Z
  /\ getUint16 buf 34 = Some 16%Z
  /\ slice buf 36 40 = list_byte_of_string "data"
  /\ getUint32 buf 40 = Some (Z.of_nat (length pcmData))
  /\ skipn 44 buf = pcmData.

(** [base64ToBytes(base64)]: [atob], a function of the browser, is a
    parameter; it returns the decoded binary string, one character per
    byte, or throws ([None]).  The loop stores [charCodeAt(i)] at index
    [i] of a [Uint8Array] of the string's length. *)
Definition base64ToBytes (atob : string -> option string) (base64 : string)
  : option (list byte) :=
  binaryString <- atob base64 ;;
  Some (map byte.of_Z (charCodes binaryString)).

(** The call signals an error instead of returning a buffer. *)
Definition rejected (pcmData : list byte) (sampleRate numChannels : Z) : Prop :=
  pcmToWav pcmData sampleRate numChannels = None.

End Audio.

(** ** Part II: JavaScript strings and truthiness *)

Module JS.

(** [s || d] on strings: the empty string is falsy. *)
Definition or_else (s d : string) : string :=
  if (s =? "")%string then d else s.

(** Truthiness of an optional string property: [undefined], [null] and
    the empty string are falsy. *)
Definition truthy (o : option string) : bool :=
  match o with
  | Some s => negb (s =? "")%string
  | None => false
  end.

(** [s.includes(sub)]. *)
Fixpoint includes (s sub : string) : bool :=
  prefix sub s
  || match s with
     | EmptyString => false
     | String _ rest => includes rest sub
     end.

(** White space removed by [trim], within the ASCII range. *)
Definition isSpace (c : ascii) : bool :=
  let n := nat_of_ascii c in
  (n =? 32)%nat || ((9 <=? n)%nat && (n <=? 13)%nat).

Fixpoint trimStartChars (cs : list ascii) : list ascii :=
  match cs with
  | [] => []
  | c :: rest => if isSpace c then trimStartChars rest else cs
  end.

(** [s.trim()]. *)
Definition trim (s : string) : string :=
  string_of_list_ascii
    (rev (trimStartChars (rev (trimStartChars (list_ascii_of_string s))))).

(** [n.toString().padStart(2, '0')]. *)
Definition padStart2 (n : nat) : string :=
  let digits := NilZero.string_of_uint (Nat.to_uint n) in
  if (String.length digits <? 2)%nat then "0" ++ digits else digits.

(** [s.toLowerCase()], within the ASCII range. *)
Definition lowerChar (c : ascii) : ascii :=
  let n := nat_of_ascii c in
  if (65 <=? n)%nat && (n <=? 90)%nat then ascii_of_nat (n + 32) else c.

Fixpoint toLowerCase (s : string) : string :=
  match s with
  | EmptyString => EmptyString
  | String c rest => String (lowerChar c) (toLowerCase rest)
  end.

(** The characters do not start with white space. *)
Definition noLeadingSpace (l : list ascii) : Prop :=
  match l with
  | [] => True
  | c :: _ => isSpace c = false
  end.

(** [o || d] for an optional string property [o]. *)
Definition orDefault (o : option string) (d : string) : string :=
  match o with
  | Some s => or_else s d
  | None => d
  end.

(** [s.slice(0, n)] *)
Definition slice0 (n : nat) (s : string) : string := substring 0 n s.

(** The double quote and the line feed of a template literal. *)
Definition quote : string := String (ascii_of_nat 34) EmptyString.

Definition newline : string := String (ascii_of_nat 10) EmptyString.

End JS.

(** ** Part III: error classification of [generateSpeech],
    [services/gemini.ts] *)

Module Gemini.
Import JS.

(** What the [catch] block of [generateSpeech] can receive: a thrown
    string, or an object with an optional [message] and an optional
    nested [error.message] (the format of the API's errors).  Errors
    raised inside the [try] block itself are objects with a [message]. *)
Inductive Thrown :=
| ThrownString (s : string)
| ThrownObject (message : option string) (errorMessage : option string).

(** The message of the [Error] that [generateSpeech] rethrows. *)
Definition rethrownMessage (model : string) (error : Thrown) : string :=
  let errorMessage :=
    match error with
    | ThrownObject message inner =>
        if truthy inner
        then match inner with Some m => m | None => "" end
        else match message with
             | Some m => or_else m "Unknown error occurred"
             | None => "Unknown error occurred"
             end
    | ThrownString s => s
    end in
  if includes errorMessage "404" then
    "Model '" ++ model ++ "' not found (404). It may be deprecated or incorrect."
  else if includes errorMessage "modality" || includes errorMessage "AUDIO" then
    "The model '" ++ model
      ++ "' does not support Audio generation. Please select a compatible TTS model."
  else if includes errorMessage "500" || includes errorMessage "503" then
    "Google API Service Error. Please try again later."
  else errorMessage.

(** The [errorMessage] the [catch] block computes before it classifies
    it. *)
Definition thrownMessage (error : Thrown) : string :=
  match error with
  | ThrownObject message inner =>
      if truthy inner
      then match inner with Some m => m | None => "" end
      else match message with
           | Some m => or_else m "Unknown error occurred"
           | None => "Unknown error occurred"
           end
  | ThrownString s => s
  end.

End Gemini.

(** ** Part IV: the job list of [pages/Home.tsx] *)

Module Home.
Import JS Gemini.

(** [ItemStatus] and [AudioItem] of [types.ts]. *)
Inductive ItemStatus := PENDING | GENERATING | SUCCESS | ERROR.

Definition ItemStatus_eqb (a b : ItemStatus) : bool :=
  match a, b with
  | PENDING, PENDING | GENERATING, GENERATING
  | SUCCESS, SUCCESS | ERROR, ERROR => true
  | _, _ => false
  end.

Record AudioItem := mkAudioItem {
  id : string;
  text : string;
  systemInstruction : option string;
  voice : string;
  model : string;
  status : ItemStatus;
  audioUrl : option string;
  createdAt : Z;
  duration : option Z;
  error : option string;
  label : option string
}.

(** [{ ...i, status: 'GENERATING' }] *)
Definition asGenerating (i : AudioItem) : AudioItem :=
  {| id := id i; text := text i; systemInstruction := systemInstruction i;
     voice := voice i; model := model i; status := GENERATING;
     audioUrl := audioUrl i; createdAt := createdAt i;
     duration := duration i; error := error i; label := label i |}.

(** [{ ...i, status: 'SUCCESS', audioUrl: url }] *)
Definition asSuccess (url : string) (i : AudioItem) : AudioItem :=
  {| id := id i; text := text i; systemInstruction := systemInstruction i;
     voice := voice i; model := model i; status := SUCCESS;
     audioUrl := Some url; createdAt := createdAt i;
     duration := duration i; error := error i; label := label i |}.

(** [{ ...i, status: 'ERROR', error: message }] *)
Definition asError (message : string) (i : AudioItem) : AudioItem :=
  {| id := id i; text := text i; systemInstruction := systemInstruction i;
     voice := voice i; model := model i; status := ERROR;
     audioUrl := audioUrl i; createdAt := createdAt i;
     duration := duration i; error := Some message; label := label i |}.

(** [prev.map(i => i.id === target ? f(i) : i)], the shape of every
    status update. *)
Definition updateById (target : string) (f : AudioItem -> AudioItem)
    (prev : list AudioItem) : list AudioItem :=
  map (fun i => if (id i =? target)%string then f i else i) prev.

(** [items.find(i => i.id === target)] *)
Definition findById (target : string) (l : list AudioItem) : option AudioItem :=
  find (fun i => (id i =? target)%string) l.

(** [items.find(i => i.status === 'PENDING')] *)
Definition findPending (l : list AudioItem) : option AudioItem :=
  find (fun i => ItemStatus_eqb (status i) PENDING) l.

(** Which code started a [generateSpeech] call: the queue effect or
    [handleGenerateSingle]. *)
Inductive Origin := Automatic | Manual.

(** A [generateSpeech] call that has been started and has not settled:
    the continuation after the [await] holds the item found before it. *)
Record Call := mkCall { origin : Origin; callItem : AudioItem }.

(** The state of the component and of the part of the browser it acts on.
    - [items], [isProcessing], [userApiKey]: the [useState] cells;
    - [effectDue]: a dependency of the queue effect ([items] or
      [isProcessing]) changed since the effect last ran, so React runs it
      again after the commit;
    - [inflight]: the pending [generateSpeech] promises;
    - [objectURLs]: the live blob URLs, from [URL.createObjectURL] until
      [URL.revokeObjectURL];
    - [revoked]: the arguments of the [URL.revokeObjectURL] calls so far. *)
Record State := mkState {
  items : list AudioItem;
  isProcessing : bool;
  userApiKey : option string;
  effectDue : bool;
  inflight : list Call;
  objectURLs : list string;
  revoked : list string
}.

(** [setItems(prev => f(prev))]: [map], [filter] and the spread all build
    a new array, so the dependency [items] of the queue effect changes. *)
Definition setItems (f : list AudioItem -> list AudioItem) (h : State) : State :=
  {| items := f (items h); isProcessing := isProcessing h;
     userApiKey := userApiKey h; effectDue := true;
     inflight := inflight h; objectURLs := objectURLs h;
     revoked := revoked h |}.

(** [setIsProcessing(b)]: React skips the update when the value is the
    one already stored. *)
Definition setIsProcessing (b : bool) (h : State) : State :=
  {| items := items h; isProcessing := b;
     userApiKey := userApiKey h;
     effectDue := effectDue h || negb (Bool.eqb b (isProcessing h));
     inflight := inflight h; objectURLs := objectURLs h;
     revoked := revoked h |}.

(** [setUserApiKey(key)]; [userApiKey] is no dependency of the queue
    effect. *)
Definition setUserApiKey (key : string) (h : State) : State :=
  {| items := items h; isProcessing := isProcessing h;
     userApiKey := Some key; effectDue := effectDue h;
     inflight := inflight h; objectURLs := objectURLs h;
     revoked := revoked h |}.

Definition clearEffectDue (h : State) : State :=
  {| items := items h; isProcessing := isProcessing h;
     userApiKey := userApiKey h; effectDue := false;
     inflight := inflight h; objectURLs := objectURLs h;
     revoked := revoked h |}.

(** Reaching [await generateSpeech({...})]: the call is started and the
    function is suspended. *)
Definition startCall (o : Origin) (i : AudioItem) (h : State) : State :=
  {| items := items h; isProcessing := isProcessing h;
     userApiKey := userApiKey h; effectDue := effectDue h;
     inflight := inflight h ++ [mkCall o i]; objectURLs := objectURLs h;
     revoked := revoked h |}.

Definition dropCall (k : nat) (h : State) : State :=
  {| items := items h; isProcessing := isProcessing h;
     userApiKey := userApiKey h; effectDue := effectDue h;
     inflight := firstn k (inflight h) ++ skipn (S k) (inflight h);
     objectURLs := objectURLs h; revoked := revoked h |}.

(** [URL.createObjectURL(wavBlob)] returning [url]. *)
Definition createObjectURL (url : string) (h : State) : State :=
  {| items := items h; isProcessing := isProcessing h;
     userApiKey := userApiKey h; effectDue := effectDue h;
     inflight := inflight h; objectURLs := objectURLs h ++ [url];
     revoked := revoked h |}.

(** [URL.revokeObjectURL(url)] *)
Definition revokeObjectURL (url : string) (h : State) : State :=
  {| items := items h; isProcessing := isProcessing h;
     userApiKey := userApiKey h; effectDue := effectDue h;
     inflight := inflight h;
     objectURLs := filter (fun u => negb (u =? url)%string) (objectURLs h);
     revoked := revoked h ++ [url] |}.

(** The input form: the [useState] cells the [handleAddToQueue] handler
    reads. *)
Record Form := mkForm {
  formText : string;
  formLabel : string;
  formSystemInstruction : string;
  selectedVoice : string;
  selectedModel : string
}.

(** [handleAddToQueue], with the results of [crypto.randomUUID()] and
    [Date.now()]. *)
Definition newItem (f : Form) (uuid : string) (now : Z) (count : nat)
  : AudioItem :=
  {| id := uuid;
     text := trim (formText f);
     label := Some (or_else (trim (formLabel f)) (padStart2 (count + 1)));
     systemInstruction :=
       (let s := trim (formSystemInstruction f) in
        if (s =? "")%string then None else Some s);
     createdAt := now;
     voice := selectedVoice f;
     model := selectedModel f;
     status := PENDING;
     audioUrl := None; duration := None; error := None |}.

Definition handleAddToQueue (f : Form) (uuid : string) (now : Z) (h : State)
  : State :=
  if (trim (formText f) =? "")%string then h
  else
    let item := newItem f uuid now (length (items h)) in
    setItems (fun prev => item :: prev) h.

(** [startQueue] *)
Definition startQueue (h : State) : State := setIsProcessing true h.

(** [processQueue], up to its [await] or, when it does not reach it, to
    its end. *)
Definition processQueue (h : State) : State :=
  if negb (isProcessing h) then h
  else
    match findPending (items h) with
    | None => setIsProcessing false h
    | Some nextItem =>
        let h := setItems (updateById (id nextItem) asGenerating) h in
        if truthy (userApiKey h) then startCall Automatic nextItem h
        else
          setItems
            (updateById (id nextItem)
               (asError (or_else "No API key configured" "Failed to generate")))
            h
    end.

(** The body of the queue effect: [if (isProcessing) processQueue()]. *)
Definition queueEffect (h : State) : State :=
  if isProcessing h then processQueue h else h.

(** [handleGenerateSingle(id)], up to its [await] or to its end. *)
Definition handleGenerateSingle (target : string) (h : State) : State :=
  match findById target (items h) with
  | None => h
  | Some itemToProcess =>
      let h := setItems (updateById target asGenerating) h in
      if truthy (userApiKey h) then startCall Manual itemToProcess h
      else
        setItems
          (updateById target (asError (or_else "No API key configured" "Failed")))
          h
  end.

(** The code after the [await] when the call is fulfilled:
    [URL.createObjectURL] returns [url] and the item becomes [SUCCESS]. *)
Definition resolveCall (c : Call) (url : string) (h : State) : State :=
  setItems (updateById (id (callItem c)) (asSuccess url)) (createObjectURL url h).

(** The [catch] block: [err.message || "Failed to generate"] in
    [processQueue], [err.message || "Failed"] in [handleGenerateSingle]. *)
Definition fallbackMessage (o : Origin) : string :=
  match o with
  | Automatic => "Failed to generate"
  | Manual => "Failed"
  end.

Definition rejectCall (c : Call) (message : string) (h : State) : State :=
  setItems
    (updateById (id (callItem c))
       (asError (or_else message (fallbackMessage (origin c)))))
    h.

(** [handleDelete(id)]: inside the updater, first the release of the
    object URL of the item found in [prev] ... *)
Definition handleDelete_release (target : string) (h : State) : State :=
  match findById target (items h) with
  | Some item =>
      match audioUrl item with
      | Some url => if truthy (Some url) then revokeObjectURL url h else h
      | None => h
      end
  | None => h
  end.

(** ... then [return prev.filter(i => i.id !== id)]. *)
Definition handleDelete_remove (target : string) (h : State) : State :=
  setItems (filter (fun i => negb (id i =? target)%string)) h.

Definition handleDelete (target : string) (h : State) : State :=
  handleDelete_remove target (handleDelete_release target h).

(** How a [generateSpeech] call settles: fulfilled with a WAV blob, for
    which [URL.createObjectURL] returns ["blob:" ++ uuid], or rejected with
    the error its [catch] block rethrows. *)
Inductive Outcome :=
| Fulfilled (uuid : string)
| Failed (error : Thrown).

(** What can happen to the mounted component. *)
Inductive Event :=
| ApiKeyLoaded (key : option string)
| AddToQueue (f : Form) (uuid : string) (now : Z)
| StartQueue
| QueueEffect
| Settle (k : nat) (o : Outcome)
| GenerateSingle (target : string)
| Delete (target : string).

Definition mem (x : string) (l : list string) : bool :=
  existsb (fun y => (y =? x)%string) l.

(** [crypto.randomUUID()] returns an identifier no item and no
    outstanding call carries. *)
Definition freshId (uuid : string) (h : State) : bool :=
  negb (mem uuid (map id (items h)))
  && negb (mem uuid (map (fun c => id (callItem c)) (inflight h))).

(** [URL.createObjectURL] returns a URL it never returned before. *)
Definition freshURL (url : string) (h : State) : bool :=
  negb (mem url (objectURLs h)) && negb (mem url (revoked h)).

(** One step of the component; [None] when the event cannot happen in
    state [h]. *)
Definition step (e : Event) (h : State) : option State :=
  match e with
  | ApiKeyLoaded key =>
      match key with
      | Some k => if truthy key then Some (setUserApiKey k h) else Some h
      | None => Some h
      end
  | AddToQueue f uuid now =>
      if freshId uuid h then Some (handleAddToQueue f uuid now h) else None
  | StartQueue => Some (startQueue h)
  | QueueEffect =>
      if effectDue h then Some (queueEffect (clearEffectDue h)) else None
  | Settle k o =>
      match nth_error (inflight h) k with
      | None => None
      | Some c =>
          let h := dropCall k h in
          match o with
          | Fulfilled uuid =>
              let url := ("blob:" ++ uuid)%string in
              if freshURL url h then Some (resolveCall c url h) else None
          | Failed err =>
              Some (rejectCall c (rethrownMessage (model (callItem c)) err) h)
          end
      end
  | GenerateSingle target => Some (handleGenerateSingle target h)
  | Delete target => Some (handleDelete target h)
  end.

Fixpoint run (evs : list Event) (h : State) : option State :=
  match evs with
  | [] => Some h
  | e :: rest =>
      match step e h with
      | Some h' => run rest h'
      | None => None
      end
  end.

(** The component after mounting: empty list, queue stopped, key not yet
    loaded, effects about to run for the first time. *)
Definition initial : State :=
  {| items := []; isProcessing := false; userApiKey := None;
     effectDue := true; inflight := []; objectURLs := []; revoked := [] |}.

(** The job a step of the queue effect picks, if it picks one. *)
Definition selected (e : Event) (h : State) : list string :=
  match e with
  | QueueEffect =>
      if effectDue h && isProcessing h
      then match findPending (items h) with
           | Some nextItem => [id nextItem]
           | None => []
           end
      else []
  | _ => []
  end.

(** The jobs picked along a run, in order. *)
Fixpoint selections (evs : list Event) (h : State) : list string :=
  match evs with
  | [] => []
  | e :: rest =>
      selected e h
      ++ match step e h with
         | Some h' => selections rest h'
         | None => []
         end
  end.

(** Events of automatic processing: runs of the queue effect and
    settlements of the calls it started. *)
Definition automatic (e : Event) : bool :=
  match e with
  | QueueEffect | Settle _ _ => true
  | _ => false
  end.


(** The part of it every update keeps: a [SUCCESS] item has a non-empty
    result handle, an [ERROR] item a non-empty error detail, a [PENDING]
    item neither field. *)
Definition fieldsCoverStatus (i : AudioItem) : Prop :=
  (status i = SUCCESS -> truthy (audioUrl i) = true)
  /\ (status i = ERROR -> truthy (error i) = true)
  /\ (status i = PENDING -> audioUrl i = None /\ error i = None).

(** The shape of the list while the queue drains: the jobs already picked
    ([A], none of them [PENDING]) come first, the jobs still waiting ([B],
    all [PENDING]) after them; ids are pairwise distinct and every
    outstanding call was started for a job of [A]. *)
Record drainInv (h : State) (A B : list AudioItem) : Prop := {
  drain_items : items h = A ++ B;
  drain_nodup : NoDup (map id (A ++ B));
  drain_started : Forall (fun i => status i <> PENDING) A;
  drain_waiting : Forall (fun i => status i = PENDING) B;
  drain_calls :
    Forall (fun c => In (id (callItem c)) (map id A)) (inflight h)
}.



(** The outcome [o] can occur in state [h]: a fulfilled call gets a URL
    that was never handed out. *)
Definition canSettle (o : Outcome) (h : State) : bool :=
  match o with
  | Fulfilled uuid => freshURL ("blob:" ++ uuid) h
  | Failed _ => true
  end.

End Home.

(** ** Part V: the whole of [generateSpeech], [services/gemini.ts] *)

Module Speech.
Import JS Gemini Audio Home.

(** [GenerateSpeechParams] *)
Record GenerateSpeechParams := mkParams {
  paramText : string;
  paramVoice : string;
  paramModel : string;
  paramSystemInstruction : option string
}.

(** The prompt sent to the model: the trimmed instruction, a line feed and
    the text when [systemInstruction && systemInstruction.trim()], the
    text otherwise. *)
Definition finalPrompt (p : GenerateSpeechParams) : string :=
  match paramSystemInstruction p with
  | Some instruction =>
      if truthy (Some instruction) && truthy (Some (trim instruction))
      then (trim instruction ++ newline ++ paramText p)%string
      else paramText p
  | None => paramText p
  end.

(** The argument of the [generateSpeech] calls of [processQueue] and
    [handleGenerateSingle], built from the item found. *)
Definition callParams (i : AudioItem) : GenerateSpeechParams :=
  {| paramText := text i; paramVoice := voice i; paramModel := model i;
     paramSystemInstruction := systemInstruction i |}.

(** The part of the API's response the function reads. *)
Record InlineData := mkInlineData {
  mimeType : option string;
  data : option string
}.

Record Part := mkPart {
  partText : option string;
  inlineData : option InlineData
}.

Record Content := mkContent { parts : option (list Part) }.
Record Candidate := mkCandidate { content : option Content }.
Record Response := mkResponse { candidates : option (list Candidate) }.

(** [response.candidates?.[0]?.content?.parts] *)
Definition firstParts (response : Response) : option (list Part) :=
  match candidates response with
  | Some (candidate :: _) =>
      match content candidate with
      | Some c => parts c
      | None => None
      end
  | _ => None
  end.

(** [p.inlineData?.mimeType?.startsWith('audio') || p.inlineData?.data] *)
Definition isAudioPart (p : Part) : bool :=
  match inlineData p with
  | Some d =>
      match mimeType d with
      | Some m => prefix "audio" m
      | None => false
      end
      || truthy (data d)
  | None => false
  end.

(** [parts?.find(isAudioPart)] *)
Definition audioPartOf (response : Response) : option Part :=
  match firstParts response with
  | Some ps => find isAudioPart ps
  | None => None
  end.

(** [audioPart.inlineData?.data] *)
Definition partData (p : Part) : option string :=
  match inlineData p with
  | Some d => data d
  | None => None
  end.

(** [parts?.find(p => p.text)?.text] *)
Definition textPartOf (response : Response) : option string :=
  match firstParts response with
  | Some ps =>
      match find (fun p => truthy (partText p)) ps with
      | Some p => partText p
      | None => None
      end
  | None => None
  end.

(** What the [try] block throws when the response carries no audio data. *)
Definition noAudioError (response : Response) : Thrown :=
  match textPartOf response with
  | Some textPart =>
      if truthy (Some textPart)
      then ThrownObject
             (Some ("Model returned text instead of audio: " ++ quote
                    ++ slice0 50 textPart ++ "..." ++ quote)%string)
             None
      else ThrownObject (Some "No audio data found in response.") None
  | None => ThrownObject (Some "No audio data found in response.") None
  end.

(** [generateSpeech] from the point where [ai.models.generateContent]
    has settled: [sdk] is what it threw or the response it returned, and
    [atobError] what [atob] throws on input it cannot decode.  The result
    is the message of the rethrown [Error] or the WAV blob. *)
Definition generateSpeech (atob : string -> option string) (atobError : Thrown)
    (p : GenerateSpeechParams) (sdk : Thrown + Response) : string + Blob :=
  let attempt : Thrown + Blob :=
    match sdk with
    | inl error => inl error
    | inr response =>
        match audioPartOf response with
        | Some audioPart =>
            match partData audioPart with
            | Some base64Data =>
                if truthy (Some base64Data) then
                  match base64ToBytes atob base64Data with
                  | Some pcmBytes =>
                      match pcmToWav pcmBytes 24000 1 with
                      | Some blob => inr blob
                      | None =>
                          inl (ThrownObject
                                 (Some "Offset is outside the bounds of the DataView")
                                 None)
                      end
                  | None => inl atobError
                  end
                else inl (noAudioError response)
            | None => inl (noAudioError response)
            end
        | None => inl (noAudioError response)
        end
    end in
  match attempt with
  | inr blob => inr blob
  | inl error => inl (rethrownMessage (paramModel p) error)
  end.

End Speech.

(** ** Part VI: what [HistoryItem] shows of a job *)

Module HistoryItem.
Import JS Home.

(** [parseErrorMessage(error)] *)
Definition parseErrorMessage (error : string) : string :=
  if includes error "429" || includes (toLowerCase error) "quota"
     || includes (toLowerCase error) "rate limit"
     || includes error "RESOURCE_EXHAUSTED"
  then "⚠️ Rate limit reached. Please wait 60 seconds and try again."
  else if includes (toLowerCase error) "api key"
          || includes (toLowerCase error) "authentication"
  then "🔑 API key issue. Please check your settings."
  else if includes error "404" || includes (toLowerCase error) "not found"
  then "❌ Model not available. Try a different model."
  else if includes (toLowerCase error) "audio"
          || includes (toLowerCase error) "modality"
  then "🎵 Audio generation failed. Model may not support TTS."
  else if includes (toLowerCase error) "network"
          || includes (toLowerCase error) "fetch"
  then "🌐 Network error. Check your connection."
  else if (100 <? String.length error)%nat
  then "❌ Generation failed. Please retry."
  else error.

(** The text under a failed job:
    [parseErrorMessage(item.error || 'Generation failed')]. *)
Definition shownError (item : AudioItem) : string :=
  parseErrorMessage (orDefault (error item) "Generation failed").

(** The file name of [handleDownload]:
    [gemini-tts-${item.label || item.id.slice(0, 8)}.wav]. *)
Definition downloadName (item : AudioItem) : string :=
  ("gemini-tts-" ++ orDefault (label item) (slice0 8 (id item)) ++ ".wav")%string.

End HistoryItem.

(** ** Part VII: counters, export and profile of [pages/Home.tsx] *)

Module HomeView.
Import JS Gemini Home HistoryItem.

(** A string as [handleAddToQueue] stores it: not empty and without
    white space at either end. *)
Definition trimmed (s : string) : Prop := s <> "" /\ trim s = s.

(** The fields of a job that come from the form. *)
Definition enteredFields (i : AudioItem) : Prop :=
  trimmed (text i)
  /\ (exists l, label i = Some l /\ l <> "")
  /\ match systemInstruction i with
     | Some instruction => trimmed instruction
     | None => True
     end.

(** The two records agree on the fields that [handleAddToQueue] sets and
    no status update mentions. *)
Definition sameEntered (i j : AudioItem) : Prop :=
  id i = id j /\ text i = text j /\ label i = label j
  /\ systemInstruction i = systemInstruction j
  /\ voice i = voice j /\ model i = model j /\ createdAt i = createdAt j.

(** The job was made by one of the events: a click on "Add to Queue"
    with a text that is not blank, when the list had [count] jobs. *)
Definition enqueuedBy (evs : list Event) (i : AudioItem) : Prop :=
  exists f uuid now count,
    In (AddToQueue f uuid now) evs
    /\ trim (formText f) <> ""
    /\ sameEntered i (newItem f uuid now count).

(** [items.filter(i => i.status === 'PENDING').length] *)
Definition pendingCount (l : list AudioItem) : nat :=
  length (filter (fun i => ItemStatus_eqb (status i) PENDING) l).

(** [items.filter(i => i.status === 'SUCCESS').length] *)
Definition successCount (l : list AudioItem) : nat :=
  length (filter (fun i => ItemStatus_eqb (status i) SUCCESS) l).

(** [items.filter(i => i.status === 'SUCCESS' && i.audioUrl)], the jobs
    [handleDownloadAll] goes through. *)
Definition successItems (l : list AudioItem) : list AudioItem :=
  filter (fun i => ItemStatus_eqb (status i) SUCCESS && truthy (audioUrl i)) l.

(** [/[^a-z0-9]/gi]: what the replacement keeps. *)
Definition isAlnum (c : ascii) : bool :=
  let n := nat_of_ascii c in
  ((48 <=? n)%nat && (n <=? 57)%nat)
  || ((65 <=? n)%nat && (n <=? 90)%nat)
  || ((97 <=? n)%nat && (n <=? 122)%nat).

Fixpoint replaceUnsafe (s : string) : string :=
  match s with
  | EmptyString => EmptyString
  | String c rest =>
      String (if isAlnum c then c else "_"%char) (replaceUnsafe rest)
  end.

(** [item.label || item.id.slice(0, 8)] *)
Definition safeLabel (item : AudioItem) : string :=
  orDefault (label item) (slice0 8 (id item)).

(** [item.text.slice(0, 20).replace(/[^a-z0-9]/gi, '_')] *)
Definition safeText (item : AudioItem) : string :=
  replaceUnsafe (slice0 20 (text item)).

(** [`${safeLabel}_${safeText}.wav`] *)
Definition zipFileName (item : AudioItem) : string :=
  (safeLabel item ++ "_" ++ safeText item ++ ".wav")%string.

(** [User] of [types/user.ts]. *)
Record UserMetadata := mkUserMetadata {
  name : option string;
  avatar_url : option string;
  full_name : option string
}.

Record User := mkUser {
  userId : string;
  email : string;
  user_metadata : UserMetadata
}.

(** [email.split('@')[0]] *)
Fixpoint beforeAt (s : string) : string :=
  match s with
  | EmptyString => EmptyString
  | String c rest =>
      if (c =? "@")%char then EmptyString else String c (beforeAt rest)
  end.

(** [getUserDisplayName()]:
    [user?.user_metadata?.full_name || user?.user_metadata?.name
     || user?.email?.split('@')[0] || 'User'] *)
Definition getUserDisplayName (user : option User) : string :=
  match user with
  | Some u =>
      if truthy (full_name (user_metadata u))
      then orDefault (full_name (user_metadata u)) ""
      else if truthy (name (user_metadata u))
      then orDefault (name (user_metadata u)) ""
      else or_else (beforeAt (email u)) "User"
  | None => "User"
  end.

(** [items.filter(i => i.status === 'PENDING')], the jobs [pendingCount]
    counts. *)
Definition pendingJobs (l : list AudioItem) : list AudioItem :=
  filter (fun i => ItemStatus_eqb (status i) PENDING) l.

(** The list with [g] applied to every [PENDING] job. *)
Definition markPending (g : AudioItem -> AudioItem) (l : list AudioItem)
  : list AudioItem :=
  map (fun i => if ItemStatus_eqb (status i) PENDING then g i else i) l.

(** What one run of the queue effect makes of the job it picks: with a
    key the job waits for its call, without one it has failed. *)
Definition picked (key : option string) (i : AudioItem) : AudioItem :=
  if truthy key then asGenerating i
  else asError (or_else "No API key configured" "Failed to generate")
         (asGenerating i).

(** The record the settlement of [c] with outcome [o] makes of a job. *)
Definition settledAs (c : Call) (o : Outcome) (i : AudioItem) : AudioItem :=
  match o with
  | Fulfilled uuid => asSuccess ("blob:" ++ uuid) i
  | Failed err =>
      asError (or_else (rethrownMessage (model (callItem c)) err)
                 (fallbackMessage (origin c))) i
  end.

(** The list without its [k]-th element, as [dropCall] leaves the
    outstanding calls. *)
Definition dropNth {A : Type} (k : nat) (l : list A) : list A :=
  firstn k l ++ skipn (S k) l.

(** The code that runs when the call [c] settles with outcome [o]. *)
Definition continuation (c : Call) (o : Outcome) (h : State) : State :=
  match o with
  | Fulfilled uuid => resolveCall c ("blob:" ++ uuid) h
  | Failed err => rejectCall c (rethrownMessage (model (callItem c)) err) h
  end.

End HomeView.

(** ** Part VIII: [components/VoiceSelector.tsx] and the tables of
    [types.ts] *)

Module Voices.
Import JS.

Inductive Gender := Male | Female | Neutral.

Inductive Category := Gemini | Journey | Studio | Neural2 | WaveNet | Standard.

(** [VoiceOption] *)
Record VoiceOption := mkVoice {
  voiceId : string;
  voiceName : string;
  gender : Gender;
  languageCode : option string;
  category : option Category;
  tags : option (list string);
  description : option string;
  pitch : option string
}.

Definition geminiVoice (n : string) (g : Gender) (tag p : string) : VoiceOption :=
  {| voiceId := n; voiceName := n; gender := g; languageCode := None;
     category := Some Gemini; tags := Some [tag]; pitch := Some p;
     description := Some (tag ++ ", " ++ p)%string |}.

(** [GEMINI_VOICES] *)
Definition GEMINI_VOICES : list VoiceOption :=
  [ geminiVoice "Zephyr" Female "Bright" "Higher pitch";
    geminiVoice "Puck" Male "Upbeat" "Middle pitch";
    geminiVoice "Charon" Male "Informative" "Lower pitch";
    geminiVoice "Kore" Female "Firm" "Middle pitch";
    geminiVoice "Fenrir" Male "Excitable" "Lower middle";
    geminiVoice "Aoede" Female "Breezy" "Higher pitch";
    geminiVoice "Achernar" Male "Soft" "Middle pitch";
    geminiVoice "Achird" Female "Friendly" "Higher pitch";
    geminiVoice "Algieba" Female "Smooth" "Middle pitch";
    geminiVoice "Algenib" Male "Gravelly" "Lower pitch";
    geminiVoice "Alnilam" Male "Firm" "Lower pitch";
    geminiVoice "Autonoe" Female "Bright" "Higher pitch";
    geminiVoice "Callirrhoe" Female "Easy-going" "Middle pitch";
    geminiVoice "Despina" Female "Smooth" "Middle pitch";
    geminiVoice "Enceladus" Male "Breathy" "Middle pitch";
    geminiVoice "Erinome" Female "Clear" "Middle pitch";
    geminiVoice "Gacrux" Male "Mature" "Lower pitch";
    geminiVoice "Iapetus" Male "Clear" "Lower middle";
    geminiVoice "Laomedeia" Female "Upbeat" "Higher pitch";
    geminiVoice "Leda" Female "Youthful" "Higher pitch";
    geminiVoice "Orus" Male "Firm" "Lower pitch";
    geminiVoice "Pulcherrima" Female "Forward" "Middle pitch";
    geminiVoice "Rasalgethi" Male "Informative" "Lower pitch";
    geminiVoice "Sadachbia" Female "Lively" "Higher pitch";
    geminiVoice "Sadaltager" Male "Knowledgeable" "Lower pitch";
    geminiVoice "Schedar" Male "Even" "Middle pitch";
    geminiVoice "Sulafat" Female "Warm" "Middle pitch";
    geminiVoice "Umbriel" Male "Easy-going" "Middle pitch";
    geminiVoice "Vindemiatrix" Female "Gentle" "Higher pitch";
    geminiVoice "Zubenelgenubi" Male "Casual" "Lower middle" ].

(** The ids of [MODELS]. *)
Definition MODEL_IDS : list string :=
  [ "gemini-2.5-flash-preview-tts"; "gemini-2.5-pro-preview-tts" ].

(** [voices.find(v => v.id === selectedVoiceId) || voices[0]] *)
Definition selectedVoice (voices : list VoiceOption) (selectedVoiceId : string)
  : option VoiceOption :=
  match find (fun v => (voiceId v =? selectedVoiceId)%string) voices with
  | Some v => Some v
  | None => hd_error voices
  end.

(** The predicate of [filteredVoices]:
    [voice.name.toLowerCase().includes(term)
     || voice.tags?.some(tag => tag.toLowerCase().includes(term))]
    with [term = search.toLowerCase()]. *)
Definition matchesSearch (search : string) (voice : VoiceOption) : bool :=
  let term := toLowerCase search in
  includes (toLowerCase (voiceName voice)) term
  || match tags voice with
     | Some ts => existsb (fun tag => includes (toLowerCase tag) term) ts
     | None => false
     end.

Definition filteredVoices (voices : list VoiceOption) (search : string)
  : list VoiceOption :=
  filter (matchesSearch search) voices.

End Voices.

(** ** Concrete runs *)

Module Scenario.
Import Gemini Home.

Definition form (t : string) : Form :=
  {| formText := t; formLabel := ""; formSystemInstruction := "";
     selectedVoice := "Kore"; selectedModel := "gemini-2.5-flash-preview-tts" |}.

(** The state a run from the mounted component ends in. *)
Definition stateAfter (evs : list Event) : State :=
  match run evs initial with
  | Some h => h
  | None => initial
  end.

(** Mounting, loading the key, and enqueuing three jobs in the order
    job-1, job-2, job-3; React runs the queue effect after every commit. *)
Definition enqueueThree : list Event :=
  [ QueueEffect; ApiKeyLoaded (Some "key");
    AddToQueue (form "first") "job-1" 1; QueueEffect;
    AddToQueue (form "second") "job-2" 2; QueueEffect;
    AddToQueue (form "third") "job-3" 3; QueueEffect ].

(** Starting the queue: the effect runs for the new [isProcessing], and
    again for the [items] it has just replaced, before any call settles. *)
Definition overlapRun : list Event :=
  enqueueThree ++ [StartQueue; QueueEffect; QueueEffect].

(** The three jobs enqueued and the queue started, before the effect
    runs. *)
Definition queueStarted : list Event := enqueueThree ++ [StartQueue].

(** One job enqueued and generated by the queue. *)
Definition generateOnce : list Event :=
  [ QueueEffect; ApiKeyLoaded (Some "key");
    AddToQueue (form "first") "job-1" 1; QueueEffect;
    StartQueue; QueueEffect; QueueEffect; QueueEffect;
    Settle 0 (Fulfilled "u1"); QueueEffect ].

(** ... then re-generated by hand: the call is started, settles, and the
    job is deleted. *)
Definition regenerateStarted : list Event :=
  generateOnce ++ [GenerateSingle "job-1"; QueueEffect].

Definition regenerateDone : list Event :=
  regenerateStarted ++ [Settle 0 (Fulfilled "u2"); QueueEffect].

Definition regenerateThenDelete : list Event :=
  regenerateDone ++ [Delete "job-1"; QueueEffect].

(** A call in flight whose job is deleted before it settles. *)
Definition deleteInFlight : list Event :=
  enqueueThree ++ [GenerateSingle "job-2"; QueueEffect].

(** An error of the API in its own format. *)
Definition quotaError : Thrown :=
  ThrownObject (Some "got status: 429")
    (Some "RESOURCE_EXHAUSTED: You exceeded your current quota.").

End Scenario.

(** ** Concrete data for the further properties *)

Module Examples.
Import JS Gemini Home Speech HistoryItem HomeView Voices Scenario.

(** A form with a label and an instruction, both with white space around
    them. *)
Definition newsForm : Form :=
  mkForm "  Good evening.  " " intro " " You are a professional news anchor. "
    "Kore" "gemini-2.5-flash-preview-tts".

Definition newsRun : list Event :=
  [ QueueEffect; ApiKeyLoaded (Some "key");
    AddToQueue newsForm "job-1" 1; QueueEffect ].

(** A response whose only part has an audio MIME type and no data. *)
Definition emptyAudioResponse : Response :=
  mkResponse
    (Some [mkCandidate
             (Some (mkContent
                      (Some [mkPart None
                               (Some (mkInlineData (Some "audio/L16") None));
                             mkPart None
                               (Some (mkInlineData None (Some "AAAA")))])))]).

(** A response with four bytes of audio, and an [atob] that decodes its
    data to four zero bytes. *)
Definition audioResponse : Response :=
  mkResponse
    (Some [mkCandidate
             (Some (mkContent
                      (Some [mkPart None
                               (Some (mkInlineData (Some "audio/L16;rate=24000")
                                        (Some "AAAAAA==")))])))]).

Definition fourZeros : string :=
  String zero (String zero (String zero (String zero EmptyString))).

Definition atobExample (base64 : string) : option string :=
  if (base64 =? "AAAAAA==")%string then Some fourZeros else None.

(** Three jobs enqueued and the queue started before any key is
    loaded. *)
Definition startedWithoutKey : list Event :=
  [ QueueEffect;
    AddToQueue (form "first") "job-1" 1; QueueEffect;
    AddToQueue (form "second") "job-2" 2; QueueEffect;
    GenerateSingle "job-2"; QueueEffect;
    AddToQueue (form "third") "job-3" 3; QueueEffect;
    StartQueue ].

Definition previewParams : GenerateSpeechParams :=
  mkParams "Hello, my name is Kore." "Kore" "gemini-2.5-flash-preview-tts" None.

End Examples.

(** ** Proofs about the encoder *)

Import Audio.

Section EncoderProofs.

Lemma le_split_2 (v : Z) :
  le_split 2 v = [byte.of_Z v; byte.of_Z (Z.shiftr v 8)].
Proof. reflexivity. Qed.

Lemma le_split_4 (v : Z) :
  le_split 4 v
  = [byte.of_Z v; byte.of_Z (Z.shiftr v 8);
     byte.of_Z (Z.shiftr (Z.shiftr v 8) 8);
     byte.of_Z (Z.shiftr (Z.shiftr (Z.shiftr v 8) 8) 8)].
Proof. reflexivity. Qed.

Lemma store_at_end (hdr tail bs : list byte) (off : nat) :
  length hdr = off -> length tail = length bs ->
  store (hdr ++ tail) off bs = Some (hdr ++ bs).
Proof.
  intros Hoff Hlen. unfold store.
  rewrite length_app, Hoff, Hlen, Nat.leb_refl.
  rewrite <- Hoff, firstn_app, firstn_all, Nat.sub_diag, app_nil_r.
  rewrite <- Hlen, <- length_app, skipn_all, app_nil_r.
  reflexivity.
Qed.

Lemma wavHeader_length (n : nat) (sampleRate numChannels : Z) :
  length (wavHeader n sampleRate numChannels) = 44.
Proof. reflexivity. Qed.

(** The thirteen header writes, run on the zeroed buffer, leave the header
    in front of the still untouched data area. *)
Lemma pcmToWav_header_written (pcmData : list byte) (sampleRate numChannels : Z) :
  pcmToWav pcmData sampleRate numChannels
  = (view <- store (wavHeader (length pcmData) sampleRate numChannels
                    ++ repeat Byte.x00 (length pcmData)) (44 + 0) pcmData ;;
     Some (mkBlob view "audio/wav")).
Proof.
  unfold pcmToWav.
  generalize (length pcmData) at 1 2 3 4 5 as n. intros n.
  vm_compute. reflexivity.
Qed.

Lemma pcmToWav_eq (pcmData : list byte) (sampleRate numChannels : Z) :
  pcmToWav pcmData sampleRate numChannels
  = Some (mkBlob (wavHeader (length pcmData) sampleRate numChannels ++ pcmData)
                 "audio/wav").
Proof.
  rewrite pcmToWav_header_written.
  rewrite store_at_end; auto using wavHeader_length, repeat_length.
Qed.

Ltac read_field :=
  unfold getUint32, getUint16, slice;
  cbn [Nat.add Nat.sub length Nat.leb firstn skipn app];
  rewrite <- ?le_split_4, <- ?le_split_2;
  rewrite ?le_combine_split.

(** C1 (amended).  For every byte sequence [pcmData], sample rate and
    channel count that fit the header fields (36 + length below 2^32, rate
    in [0, 2^32), channel count non-negative with twice the count below
    2^16, byte rate below 2^32), [pcmToWav] returns a blob of MIME type
    audio/wav whose buffer has length 44 + length(pcmData) and the header
    layout of the claim, followed by a verbatim copy of [pcmData]. *)
Theorem pcmToWav_layout (pcmData : list byte) (sampleRate numChannels : Z) :
  (36 + Z.of_nat (length pcmData) < 2 ^ 32)%Z ->
  (0 <= sampleRate < 2 ^ 32)%Z ->
  (0 <= numChannels)%Z ->
  (numChannels * 2 < 2 ^ 16)%Z ->
  (sampleRate * numChannels * 2 < 2 ^ 32)%Z ->
  exists buf,
    pcmToWav pcmData sampleRate numChannels = Some (mkBlob buf "audio/wav")
    /\ wavLayout buf pcmData sampleRate numChannels.
Proof.
  intros Hsize Hrate Hch Halign Hbyte.
  eexists. split; [apply pcmToWav_eq |].
  unfold wavLayout, wavHeader, charCodes.
  rewrite !le_split_4, !le_split_2.
  cbn [list_ascii_of_string map app].
  repeat apply conj.
  all: read_field.
  all: try reflexivity.
  all: f_equal.
  all: change (Z.of_nat 4 * 8)%Z with 32%Z; change (Z.of_nat 2 * 8)%Z with 16%Z.
  all: try (apply Z.mod_small; lia).
  rewrite Z.mul_assoc. apply Z.mod_small. nia.
Qed.

(** The example of the claim: four zero bytes at 24000 Hz, one channel. *)
Lemma pcmToWav_layout_witness :
  exists buf,
    pcmToWav [Byte.x00; Byte.x00; Byte.x00; Byte.x00] 24000 1
    = Some (mkBlob buf "audio/wav")
    /\ wavLayout buf [Byte.x00; Byte.x00; Byte.x00; Byte.x00] 24000 1
    /\ length buf = 48
    /\ getUint32 buf 4 = Some 40%Z
    /\ getUint32 buf 40 = Some 4%Z.
Proof.
  destruct (pcmToWav_layout [Byte.x00; Byte.x00; Byte.x00; Byte.x00] 24000 1)
    as [buf [Hrun Hlayout]]; cbn [length Z.of_nat]; try lia.
  exists buf. split; [exact Hrun |]. split; [exact Hlayout |].
  destruct Hlayout as (Hlen & _ & Hriff & _ & _ & _ & _ & _ & _ & _ & _ & _ & _ & Hdata & _).
  repeat split; assumption.
Defined.

(** C1 (as stated) fails: with 65536 channels the 16-bit field at offset
    22 holds 0, not the channel count. *)
Lemma pcmToWav_channel_count_wraps :
  exists buf,
    pcmToWav [Byte.x00; Byte.x00; Byte.x00; Byte.x00] 24000 65536
    = Some (mkBlob buf "audio/wav")
    /\ getUint16 buf 22 = Some 0%Z
    /\ ~ wavLayout buf [Byte.x00; Byte.x00; Byte.x00; Byte.x00] 24000 65536.
Proof.
  eexists. split; [apply pcmToWav_eq |].
  assert (Hfield : getUint16
            (wavHeader (length [Byte.x00; Byte.x00; Byte.x00; Byte.x00]) 24000 65536
             ++ [Byte.x00; Byte.x00; Byte.x00; Byte.x00]) 22 = Some 0%Z)
    by (vm_compute; reflexivity).
  split; [exact Hfield |].
  intros (_ & _ & _ & _ & _ & _ & _ & Hch & _).
  rewrite Hfield in Hch. discriminate Hch.
Qed.

(** C6 (amended).  [pcmToWav] validates nothing: for every [pcmData]
    (empty and unaligned included) and all integers [sampleRate] and
    [numChannels] (zero and negative included) it raises no error and
    returns a blob of 44 + length(pcmData) bytes ending in [pcmData]. *)
Theorem pcmToWav_never_rejects (pcmData : list byte) (sampleRate numChannels : Z) :
  exists blob,
    pcmToWav pcmData sampleRate numChannels = Some blob
    /\ length (blob_bytes blob) = 44 + length pcmData
    /\ skipn 44 (blob_bytes blob) = pcmData.
Proof.
  eexists. split; [apply pcmToWav_eq |].
  cbn [blob_bytes]. split.
  - rewrite length_app, wavHeader_length. reflexivity.
  - rewrite skipn_app, wavHeader_length, Nat.sub_diag.
    rewrite <- (wavHeader_length (length pcmData) sampleRate numChannels) at 1.
    rewrite skipn_all. reflexivity.
Qed.

(** C6 (as stated) fails: zero rate and channel count with empty data,
    a negative rate, and data of odd length are all encoded. *)
Lemma pcmToWav_accepts_invalid_input :
  ~ rejected [] 0 0
  /\ ~ rejected [Byte.x01; Byte.x02] (-1) 1
  /\ ~ rejected [Byte.x01; Byte.x02; Byte.x03] 24000 1.
Proof.
  unfold rejected. rewrite !pcmToWav_eq. repeat split; discriminate.
Qed.

End EncoderProofs.

(** ** Proofs about the job list *)

Import JS Gemini Home Scenario.

Section ListUpdates.

Lemma or_else_nonempty (s d : string) : d <> "" -> or_else s d <> "".
Proof.
  intros Hd. unfold or_else.
  destruct (s =? "")%string eqn:E; [exact Hd |].
  apply String.eqb_neq. exact E.
Qed.

Lemma truthy_Some (s : string) : s <> "" -> truthy (Some s) = true.
Proof.
  intros Hs. cbn. apply String.eqb_neq in Hs. rewrite Hs. reflexivity.
Qed.

Lemma truthy_present (o : option string) :
  truthy o = true -> exists s, o = Some s /\ s <> "".
Proof.
  destruct o as [s |]; cbn; [| discriminate].
  intros H. exists s. split; [reflexivity |].
  apply String.eqb_neq. destruct (s =? "")%string; [discriminate | reflexivity].
Qed.

Lemma updateById_length target f l :
  length (updateById target f l) = length l.
Proof. apply length_map. Qed.

Lemma updateById_ids target f l :
  (forall i, id (f i) = id i) ->
  map id (updateById target f l) = map id l.
Proof.
  intros Hf. unfold updateById. rewrite map_map. apply map_ext.
  intros i. destruct (id i =? target)%string; auto.
Qed.

Lemma updateById_absent target f l :
  (forall i, In i l -> id i <> target) -> updateById target f l = l.
Proof.
  intros Habs. unfold updateById. rewrite <- (map_id l) at 2.
  apply map_ext_in. intros i Hi.
  apply Habs, String.eqb_neq in Hi. rewrite Hi. reflexivity.
Qed.

Lemma updateById_app target f l1 l2 :
  updateById target f (l1 ++ l2)
  = updateById target f l1 ++ updateById target f l2.
Proof. apply map_app. Qed.

Lemma updateById_Forall (P : AudioItem -> Prop) target f l :
  (forall i, P i -> P (f i)) -> Forall P l -> Forall P (updateById target f l).
Proof.
  intros Hf Hl. unfold updateById. apply Forall_map.
  eapply Forall_impl; [| exact Hl]. intros i Hi. cbn.
  destruct (id i =? target)%string; auto.
Qed.

Lemma updateById_nth target f l n i :
  nth_error l n = Some i ->
  nth_error (updateById target f l) n
  = Some (if (id i =? target)%string then f i else i).
Proof. intros H. unfold updateById. rewrite nth_error_map, H. reflexivity. Qed.

Lemma findById_Some target l i :
  findById target l = Some i -> In i l /\ id i = target.
Proof.
  intros H. apply find_some in H. destruct H as [Hin Heq].
  split; [exact Hin | apply String.eqb_eq; exact Heq].
Qed.

Lemma findById_None target l :
  findById target l = None -> forall i, In i l -> id i <> target.
Proof.
  intros H i Hi. apply String.eqb_neq.
  exact (find_none _ _ H i Hi).
Qed.

End ListUpdates.

Section FieldInvariant.

Lemma asGenerating_covers i : fieldsCoverStatus (asGenerating i).
Proof. repeat split; cbn; discriminate. Qed.

Lemma asSuccess_covers url i : url <> "" -> fieldsCoverStatus (asSuccess url i).
Proof.
  intros Hurl. repeat split; cbn [asSuccess status audioUrl error];
    try discriminate.
  intros _. apply truthy_Some. exact Hurl.
Qed.

Lemma asError_covers message i :
  message <> "" -> fieldsCoverStatus (asError message i).
Proof.
  intros Hm. repeat split; cbn [asError status audioUrl error];
    try discriminate.
  intros _. apply truthy_Some. exact Hm.
Qed.

Lemma newItem_covers f uuid now count :
  fieldsCoverStatus (newItem f uuid now count).
Proof. repeat split; cbn; discriminate. Qed.

Create HintDb covers.

Local Hint Resolve asGenerating_covers asSuccess_covers asError_covers
  newItem_covers or_else_nonempty : covers.

Lemma startOrFail_covers o target fallback item h :
  fallback <> "" ->
  Forall fieldsCoverStatus (items h) ->
  Forall fieldsCoverStatus
    (items
       (let h := setItems (updateById target asGenerating) h in
        if truthy (userApiKey h) then startCall o item h
        else setItems
               (updateById target
                  (asError (or_else "No API key configured" fallback))) h)).
Proof.
  intros Hfb Hok. cbn zeta.
  destruct (truthy (userApiKey _)); cbn [items startCall setItems].
  - apply updateById_Forall; auto with covers.
  - apply updateById_Forall; [intros; apply asError_covers; auto with covers |].
    apply updateById_Forall; auto with covers.
Qed.

Lemma step_covers e h h' :
  step e h = Some h' ->
  Forall fieldsCoverStatus (items h) ->
  Forall fieldsCoverStatus (items h').
Proof.
  intros Hstep Hok. destruct e; cbn [step] in Hstep.
  - (* ApiKeyLoaded *)
    destruct key as [k |]; [destruct (truthy (Some k)) |];
      inversion Hstep; subst; exact Hok.
  - (* AddToQueue *)
    destruct (freshId uuid h); [| discriminate].
    inversion Hstep; subst. unfold handleAddToQueue.
    destruct (trim (formText f) =? "")%string; [exact Hok |].
    cbn [items setItems]. constructor; auto with covers.
  - (* StartQueue *)
    inversion Hstep; subst. exact Hok.
  - (* QueueEffect *)
    destruct (effectDue h); [| discriminate].
    inversion Hstep; subst. unfold queueEffect, processQueue.
    cbn [isProcessing clearEffectDue items userApiKey].
    destruct (isProcessing h); cbn [negb]; [| exact Hok].
    destruct (findPending (items h)) as [nextItem |]; [| exact Hok].
    apply (startOrFail_covers Automatic (id nextItem) "Failed to generate"
             nextItem (clearEffectDue h)); [discriminate | exact Hok].
  - (* Settle *)
    destruct (nth_error (inflight h) k) as [c |]; [| discriminate].
    destruct o as [uuid | err].
    + destruct (freshURL _ _); [| discriminate].
      inversion Hstep; subst. cbn [items resolveCall setItems createObjectURL dropCall].
      apply updateById_Forall; [| exact Hok].
      intros; apply asSuccess_covers; discriminate.
    + inversion Hstep; subst. cbn [items rejectCall setItems dropCall].
      apply updateById_Forall; [| exact Hok].
      intros; apply asError_covers, or_else_nonempty.
      destruct (origin c); discriminate.
  - (* GenerateSingle *)
    inversion Hstep; subst. unfold handleGenerateSingle.
    destruct (findById target (items h)) as [item |]; [| exact Hok].
    apply (startOrFail_covers Manual target "Failed" item h);
      [discriminate | exact Hok].
  - (* Delete *)
    inversion Hstep; subst. unfold handleDelete, handleDelete_remove.
    cbn [items setItems].
    assert (Hsame : items (handleDelete_release target h) = items h).
    { unfold handleDelete_release.
      destruct (findById target (items h)) as [item |]; [| reflexivity].
      destruct (audioUrl item) as [url |]; [| reflexivity].
      destruct (truthy (Some url)); reflexivity. }
    rewrite Hsame. apply Forall_forall. intros i Hi.
    apply filter_In in Hi. destruct Hi as [Hi _].
    apply (proj1 (Forall_forall _ _) Hok i Hi).
Qed.

Lemma run_covers evs : forall h h',
  run evs h = Some h' ->
  Forall fieldsCoverStatus (items h) ->
  Forall fieldsCoverStatus (items h').
Proof.
  induction evs as [| e rest IH]; intros h h' Hrun Hok; cbn [run] in Hrun.
  - inversion Hrun; subst. exact Hok.
  - destruct (step e h) as [h1 |] eqn:Hstep; [| discriminate].
    eapply IH; [exact Hrun |]. eapply step_covers; eassumption.
Qed.

Lemma reachable_items_cover evs h :
  run evs initial = Some h -> Forall fieldsCoverStatus (items h).
Proof.
  intros Hrun. eapply run_covers; [exact Hrun |]. constructor.
Qed.

End FieldInvariant.

Section Handlers.

Lemma findPending_Some l i :
  findPending l = Some i -> In i l /\ status i = PENDING.
Proof.
  intros H. apply find_some in H. destruct H as [Hin Hst].
  split; [exact Hin |]. destruct (status i); (reflexivity || discriminate).
Qed.

Lemma findPending_exists l j :
  In j l -> status j = PENDING -> exists i, findPending l = Some i.
Proof.
  intros Hin Hst. destruct (findPending l) as [i |] eqn:E; [eauto |].
  pose proof (find_none _ _ E j Hin) as Hno. cbn in Hno.
  rewrite Hst in Hno. discriminate Hno.
Qed.

Lemma handleDelete_release_items target h :
  items (handleDelete_release target h) = items h.
Proof.
  unfold handleDelete_release.
  destruct (findById target (items h)) as [item |]; [| reflexivity].
  destruct (audioUrl item) as [url |]; [| reflexivity].
  destruct (truthy (Some url)); reflexivity.
Qed.

Lemma handleDelete_release_inflight target h :
  inflight (handleDelete_release target h) = inflight h.
Proof.
  unfold handleDelete_release.
  destruct (findById target (items h)) as [item |]; [| reflexivity].
  destruct (audioUrl item) as [url |]; [| reflexivity].
  destruct (truthy (Some url)); reflexivity.
Qed.

Lemma handleDelete_items target h :
  items (handleDelete target h)
  = filter (fun i => negb (id i =? target)%string) (items h).
Proof.
  unfold handleDelete, handleDelete_remove. cbn [items setItems].
  rewrite handleDelete_release_items. reflexivity.
Qed.

Lemma handleDelete_absent target h i :
  In i (items (handleDelete target h)) -> id i <> target.
Proof.
  rewrite handleDelete_items. intros Hi. apply filter_In in Hi.
  destruct Hi as [_ Hne]. apply String.eqb_neq.
  destruct (id i =? target)%string; [discriminate | reflexivity].
Qed.

(** Settling a call replaces the list by an [updateById] on the id of the
    item the call was started for. *)
Lemma settle_items h k c o h' :
  nth_error (inflight h) k = Some c ->
  step (Settle k o) h = Some h' ->
  exists f, items h' = updateById (id (callItem c)) f (items h).
Proof.
  intros Hc Hstep. cbn [step] in Hstep. rewrite Hc in Hstep.
  destruct o as [uuid | err].
  - destruct (freshURL _ _); [| discriminate].
    inversion Hstep; subst. eexists. reflexivity.
  - inversion Hstep; subst. eexists. reflexivity.
Qed.

(** [URL.revokeObjectURL] is called by [handleDelete] alone: no other
    step revokes a URL or removes one from the live ones. *)
Lemma only_delete_revokes e h h' :
  step e h = Some h' ->
  (forall target, e <> Delete target) ->
  revoked h' = revoked h
  /\ forall url, In url (objectURLs h) -> In url (objectURLs h').
Proof.
  intros Hstep Hnodel. destruct e; cbn [step] in Hstep.
  - destruct key as [k |]; [destruct (truthy (Some k)) |];
      inversion Hstep; subst; auto.
  - destruct (freshId uuid h); [| discriminate].
    inversion Hstep; subst. unfold handleAddToQueue.
    destruct (trim (formText f) =? "")%string; auto.
  - inversion Hstep; subst. auto.
  - destruct (effectDue h); [| discriminate].
    inversion Hstep; subst. unfold queueEffect, processQueue.
    cbn [isProcessing clearEffectDue items userApiKey].
    destruct (isProcessing h); cbn [negb]; auto.
    destruct (findPending (items h)) as [x |]; auto.
    cbn zeta. cbn [userApiKey setItems clearEffectDue].
    destruct (truthy (userApiKey h)); auto.
  - destruct (nth_error (inflight h) k) as [c |]; [| discriminate].
    destruct o as [uuid | err].
    + destruct (freshURL _ _); [| discriminate].
      inversion Hstep; subst. split; [reflexivity |].
      intros url Hurl. cbn [objectURLs resolveCall setItems createObjectURL dropCall].
      apply in_or_app. left. exact Hurl.
    + inversion Hstep; subst. auto.
  - inversion Hstep; subst. unfold handleGenerateSingle.
    destruct (findById target (items h)) as [item |]; auto.
    cbn zeta. cbn [userApiKey setItems].
    destruct (truthy (userApiKey h)); auto.
  - exfalso. exact (Hnodel target eq_refl).
Qed.

End Handlers.

Section Drain.

Lemma findPending_skip A B :
  Forall (fun i => status i <> PENDING) A ->
  findPending (A ++ B) = findPending B.
Proof.
  induction 1 as [| a A Ha _ IH]; [reflexivity |].
  cbn [app]. unfold findPending in *. cbn [find].
  destruct (status a); cbn [ItemStatus_eqb]; try exact IH.
  contradiction Ha; reflexivity.
Qed.

Lemma updateById_unique A x B f :
  NoDup (map id (A ++ x :: B)) ->
  updateById (id x) f (A ++ x :: B) = A ++ f x :: B.
Proof.
  intros Hnd. rewrite map_app in Hnd. cbn [map] in Hnd.
  apply NoDup_remove_2 in Hnd.
  rewrite updateById_app.
  change (updateById (id x) f (x :: B))
    with ((if (id x =? id x)%string then f x else x) :: updateById (id x) f B).
  rewrite String.eqb_refl.
  rewrite !updateById_absent; [reflexivity | |].
  - intros i Hi Heq. apply Hnd, in_or_app. right.
    rewrite <- Heq. apply in_map. exact Hi.
  - intros i Hi Heq. apply Hnd, in_or_app. left.
    rewrite <- Heq. apply in_map. exact Hi.
Qed.

Lemma NoDup_app_disjoint (l1 l2 : list string) (a : string) :
  NoDup (l1 ++ l2) -> In a l1 -> ~ In a l2.
Proof.
  induction l1 as [| b l1 IH]; cbn [app]; intros Hnd Hin H2; [contradiction |].
  inversion Hnd as [| ? ? Hb Hnd']; subst.
  destruct Hin as [-> | Hin].
  - apply Hb, in_or_app. right. exact H2.
  - exact (IH Hnd' Hin H2).
Qed.

Lemma ids_replace A (x y : AudioItem) B :
  id y = id x ->
  map id (A ++ y :: B) = map id (A ++ x :: B).
Proof.
  intros Hid. rewrite !map_app. cbn [map]. rewrite Hid. reflexivity.
Qed.

Lemma ids_snoc A (x y : AudioItem) B :
  id y = id x ->
  map id ((A ++ [y]) ++ B) = map id (A ++ x :: B).
Proof.
  intros Hid. rewrite <- app_assoc. cbn [app].
  rewrite !map_app. cbn [map]. rewrite Hid. reflexivity.
Qed.

(** A run of the effect, with the flag set and a job waiting, picks the
    first waiting job and moves it to the picked ones. *)
Lemma effect_picks_first_waiting h A x B :
  drainInv h A (x :: B) ->
  effectDue h = true -> isProcessing h = true ->
  exists h' x',
    step QueueEffect h = Some h'
    /\ selected QueueEffect h = [id x]
    /\ id x' = id x
    /\ drainInv h' (A ++ [x']) B
    /\ effectDue h' = true /\ isProcessing h' = true.
Proof.
  intros [Hitems Hnd Hst Hwait Hcalls] Hdue Hproc.
  assert (Hx : status x = PENDING) by (inversion Hwait; assumption).
  assert (Hfind : findPending (items h) = Some x).
  { rewrite Hitems, findPending_skip by exact Hst.
    unfold findPending. cbn [find]. rewrite Hx. reflexivity. }
  assert (Hwait' : Forall (fun i => status i = PENDING) B)
    by (inversion Hwait; assumption).
  cbn [step selected]. rewrite Hdue, Hproc, Hfind. cbn [andb].
  unfold queueEffect, processQueue.
  cbn [isProcessing clearEffectDue items]. rewrite Hproc, Hfind. cbn [negb].
  cbn [userApiKey setItems clearEffectDue].
  destruct (truthy (userApiKey h)).
  - exists (startCall Automatic x
              (setItems (updateById (id x) asGenerating) (clearEffectDue h))).
    exists (asGenerating x).
    repeat split; cbn [items inflight startCall setItems clearEffectDue].
    + rewrite Hitems, updateById_unique by exact Hnd.
      rewrite <- app_assoc. reflexivity.
    + rewrite (ids_snoc A x (asGenerating x) B) by reflexivity. exact Hnd.
    + apply Forall_app. split; [exact Hst |].
      constructor; [cbn; discriminate | constructor].
    + exact Hwait'.
    + apply Forall_app. split.
      * eapply Forall_impl; [| exact Hcalls]. intros c Hc. cbn beta in *.
        rewrite map_app. apply in_or_app. left. exact Hc.
      * constructor; [| constructor]. cbn [callItem].
        rewrite map_app. apply in_or_app. right. left. reflexivity.
    + exact Hproc.
  - set (failed := asError (or_else "No API key configured" "Failed to generate")).
    exists (setItems (updateById (id x) failed)
              (setItems (updateById (id x) asGenerating) (clearEffectDue h))).
    exists (failed (asGenerating x)).
    repeat split; cbn [items inflight setItems clearEffectDue].
    + rewrite Hitems, updateById_unique by exact Hnd.
      change (id x) with (id (asGenerating x)).
      rewrite updateById_unique.
      * rewrite <- app_assoc. reflexivity.
      * rewrite (ids_replace A x (asGenerating x) B) by reflexivity.
        exact Hnd.
    + rewrite (ids_snoc A x (failed (asGenerating x)) B) by reflexivity.
      exact Hnd.
    + apply Forall_app. split; [exact Hst |].
      constructor; [cbn; discriminate | constructor].
    + exact Hwait'.
    + eapply Forall_impl; [| exact Hcalls]. intros c Hc. cbn beta in *.
      rewrite map_app. apply in_or_app. left. exact Hc.
    + exact Hproc.
Qed.

(** Every automatic step keeps the shape, and what it selects is the next
    id after the picked ones. *)
Lemma drain_step e h h' A B :
  drainInv h A B ->
  automatic e = true ->
  step e h = Some h' ->
  exists A' B',
    drainInv h' A' B'
    /\ map id A ++ selected e h = map id A'
    /\ map id (A' ++ B') = map id (A ++ B).
Proof.
  intros Hinv Hauto Hstep.
  destruct e; try discriminate Hauto.
  - (* QueueEffect *)
    destruct (effectDue h) eqn:Hdue; [| cbn [step] in Hstep; rewrite Hdue in Hstep; discriminate].
    destruct (isProcessing h) eqn:Hproc.
    + destruct B as [| x B].
      * (* nothing waits: the flag is cleared *)
        destruct Hinv as [Hitems Hnd Hst Hwait Hcalls].
        assert (Hfind : findPending (items h) = None).
        { rewrite Hitems, findPending_skip by exact Hst. reflexivity. }
        cbn [step selected] in *. rewrite Hdue, Hproc, Hfind in *.
        unfold queueEffect, processQueue in Hstep.
        cbn [isProcessing clearEffectDue items] in Hstep.
        rewrite Hproc, Hfind in Hstep. cbn [negb] in Hstep.
        inversion Hstep; subst h'.
        exists A, []. split; [constructor; assumption |].
        cbn [andb]. rewrite app_nil_r. split; reflexivity.
      * destruct (effect_picks_first_waiting h A x B Hinv Hdue Hproc)
          as (h1 & x' & Hstep1 & Hsel & Hid & Hinv1 & _).
        rewrite Hstep1 in Hstep. inversion Hstep; subst h1.
        exists (A ++ [x']), B. split; [exact Hinv1 |].
        rewrite Hsel. split.
        -- rewrite map_app. cbn [map]. rewrite Hid. reflexivity.
        -- apply ids_snoc. exact Hid.
    + (* the flag is not set: the effect returns at once *)
      cbn [step selected] in *. rewrite Hdue, Hproc in *.
      unfold queueEffect in Hstep. cbn [isProcessing clearEffectDue] in Hstep.
      rewrite Hproc in Hstep. inversion Hstep; subst h'.
      destruct Hinv as [Hitems Hnd Hst Hwait Hcalls].
      exists A, B. split; [constructor; assumption |].
      cbn [andb]. rewrite app_nil_r. split; reflexivity.
  - (* Settle *)
    destruct Hinv as [Hitems Hnd Hst Hwait Hcalls].
    destruct (nth_error (inflight h) k) as [c |] eqn:Hc;
      [| cbn [step] in Hstep; rewrite Hc in Hstep; discriminate].
    assert (HcA : In (id (callItem c)) (map id A)).
    { rewrite Forall_forall in Hcalls. apply Hcalls.
      eapply nth_error_In. exact Hc. }
    assert (HcB : forall i, In i B -> id i <> id (callItem c)).
    { intros i Hi Heq. rewrite map_app in Hnd.
      apply (NoDup_app_disjoint _ _ _ Hnd HcA).
      rewrite <- Heq. apply in_map. exact Hi. }
    assert (Hupd : forall f,
               (forall i, id (f i) = id i) ->
               (forall i, status (f i) <> PENDING) ->
               drainInv
                 (setItems (updateById (id (callItem c)) f) (dropCall k h))
                 (updateById (id (callItem c)) f A) B
               /\ map id A ++ [] = map id (updateById (id (callItem c)) f A)
               /\ map id (updateById (id (callItem c)) f A ++ B) = map id (A ++ B)).
    { intros f Hfid Hfst.
      assert (Hids : map id (updateById (id (callItem c)) f A) = map id A)
        by (apply updateById_ids; exact Hfid).
      split; [| split].
      - constructor; cbn [items inflight setItems dropCall].
        + rewrite Hitems, updateById_app, (updateById_absent _ _ B HcB).
          reflexivity.
        + rewrite map_app, Hids, <- map_app. exact Hnd.
        + unfold updateById. apply Forall_map.
          eapply Forall_impl; [| exact Hst]. intros i Hi. cbn beta.
          destruct (id i =? id (callItem c))%string; [apply Hfst | exact Hi].
        + exact Hwait.
        + rewrite Hids. rewrite Forall_forall in *. intros c' Hc'.
          apply Hcalls. apply in_app_or in Hc'. destruct Hc' as [Hc' | Hc'].
          * rewrite <- (firstn_skipn k). apply in_or_app. left. exact Hc'.
          * rewrite <- (firstn_skipn (S k)). apply in_or_app. right. exact Hc'.
      - rewrite app_nil_r. symmetry. exact Hids.
      - rewrite !map_app, Hids. reflexivity. }
    cbn [step] in Hstep. rewrite Hc in Hstep. cbn [selected].
    destruct o as [uuid | err].
    + destruct (freshURL _ _); [| discriminate].
      inversion Hstep; subst h'.
      exists (updateById (id (callItem c)) (asSuccess ("blob:" ++ uuid)) A), B.
      destruct (Hupd (asSuccess ("blob:" ++ uuid)))
        as [Hinv' Hrest]; [reflexivity | cbn; discriminate |].
      split; [| exact Hrest].
      destruct Hinv' as [H1 H2 H3 H4 H5]. constructor; assumption.
    + inversion Hstep; subst h'.
      eexists _, B. apply Hupd; [reflexivity | cbn; discriminate].
Qed.

Lemma drain_run evs : forall h h' A B,
  drainInv h A B ->
  forallb automatic evs = true ->
  run evs h = Some h' ->
  exists A' B',
    drainInv h' A' B'
    /\ map id A ++ selections evs h = map id A'
    /\ map id (A' ++ B') = map id (A ++ B).
Proof.
  induction evs as [| e rest IH]; intros h h' A B Hinv Hauto Hrun.
  - inversion Hrun; subst h'. exists A, B.
    cbn [selections]. rewrite app_nil_r. auto.
  - cbn [forallb] in Hauto. apply andb_prop in Hauto. destruct Hauto as [He Hrest].
    cbn [run selections] in *.
    destruct (step e h) as [h1 |] eqn:Hstep; [| discriminate].
    destruct (drain_step e h h1 A B Hinv He Hstep) as (A1 & B1 & Hinv1 & Hsel1 & Hids1).
    destruct (IH h1 h' A1 B1 Hinv1 Hrest Hrun) as (A2 & B2 & Hinv2 & Hsel2 & Hids2).
    exists A2, B2. split; [exact Hinv2 |]. split.
    + rewrite app_assoc, Hsel1. exact Hsel2.
    + rewrite Hids2. exact Hids1.
Qed.

(** As many runs of the effect as jobs wait pick them all, in list order. *)
Lemma drain_effects B : forall h A,
  drainInv h A B ->
  effectDue h = true -> isProcessing h = true ->
  exists h' A',
    run (repeat QueueEffect (length B)) h = Some h'
    /\ selections (repeat QueueEffect (length B)) h = map id B
    /\ drainInv h' A' [].
Proof.
  induction B as [| x B IH]; intros h A Hinv Hdue Hproc.
  - exists h, A. split; [reflexivity |]. split; [reflexivity | exact Hinv].
  - destruct (effect_picks_first_waiting h A x B Hinv Hdue Hproc)
      as (h1 & x' & Hstep & Hsel & _ & Hinv1 & Hdue1 & Hproc1).
    destruct (IH h1 (A ++ [x']) Hinv1 Hdue1 Hproc1) as (h' & A' & Hrun & Hsels & Hinv').
    exists h', A'. cbn [length repeat run selections map].
    rewrite Hstep, Hsel, Hsels.
    split; [exact Hrun |]. split; [reflexivity | exact Hinv'].
Qed.

Lemma mem_false (x : string) (l : list string) :
  ~ In x l -> mem x l = false.
Proof.
  intros Hx. unfold mem. destruct (existsb _ l) eqn:E; [| reflexivity].
  apply existsb_exists in E. destruct E as [y [Hy Heq]].
  apply String.eqb_eq in Heq. subst y. contradiction.
Qed.

(** Enqueuing non-blank text under an unused id puts the new [PENDING]
    job in front of the list. *)
Lemma enqueue_step f uuid now h :
  trim (formText f) <> "" ->
  ~ In uuid (map id (items h)) ->
  inflight h = [] ->
  step (AddToQueue f uuid now) h
  = Some (setItems (cons (newItem f uuid now (length (items h)))) h).
Proof.
  intros Htext Hfresh Hcalls. cbn [step]. unfold freshId, handleAddToQueue.
  rewrite Hcalls, (mem_false _ _ Hfresh). cbn [map mem existsb negb andb].
  apply String.eqb_neq in Htext. rewrite Htext. reflexivity.
Qed.

(** What a run of the effect does when the flag is set and [x] is the
    first [PENDING] job: with a key the job is marked [GENERATING] and
    its call is started, without one the job is marked [GENERATING] and
    then [ERROR]. *)
Lemma effect_processes_next h x :
  isProcessing h = true -> effectDue h = true ->
  findPending (items h) = Some x ->
  step QueueEffect h = Some (queueEffect (clearEffectDue h))
  /\ selected QueueEffect h = [id x]
  /\ isProcessing (queueEffect (clearEffectDue h)) = true
  /\ (truthy (userApiKey h) = true ->
      items (queueEffect (clearEffectDue h)) = updateById (id x) asGenerating (items h)
      /\ inflight (queueEffect (clearEffectDue h)) = inflight h ++ [mkCall Automatic x])
  /\ (truthy (userApiKey h) = false ->
      items (queueEffect (clearEffectDue h))
      = updateById (id x) (asError "No API key configured")
          (updateById (id x) asGenerating (items h))
      /\ inflight (queueEffect (clearEffectDue h)) = inflight h).
Proof.
  intros Hproc Hdue Hfind.
  split; [cbn [step]; rewrite Hdue; reflexivity |].
  split; [cbn [selected]; rewrite Hdue, Hproc, Hfind; reflexivity |].
  unfold queueEffect, processQueue.
  cbn [isProcessing clearEffectDue items]. rewrite Hproc, Hfind. cbn [negb].
  cbn zeta. cbn [userApiKey setItems clearEffectDue].
  destruct (truthy (userApiKey h)).
  - cbn [items inflight isProcessing startCall setItems clearEffectDue].
    split; [exact Hproc |]. split; [intros _; split; reflexivity |].
    discriminate.
  - cbn [items inflight isProcessing setItems clearEffectDue].
    split; [exact Hproc |]. split; [discriminate |].
    intros _. split; reflexivity.
Qed.

End Drain.

Section ExactInvariant.

Lemma mem_false_inv (x : string) (l : list string) :
  mem x l = false -> ~ In x l.
Proof.
  intros Hm Hin. unfold mem in Hm.
  assert (Ht : existsb (fun y => (y =? x)%string) l = true).
  { apply existsb_exists. exists x. split; [exact Hin | apply String.eqb_refl]. }
  rewrite Ht in Hm. discriminate Hm.
Qed.

Lemma same_id_same_item l (i x : AudioItem) :
  NoDup (map id l) -> In i l -> In x l -> id i = id x -> i = x.
Proof.
  induction l as [| a l IH]; cbn [map]; intros Hnd Hi Hx Hid; [contradiction |].
  inversion Hnd as [| ? ? Ha Hnd']; subst.
  destruct Hi as [-> | Hi], Hx as [-> | Hx].
  - reflexivity.
  - exfalso. apply Ha. rewrite Hid. apply in_map. exact Hx.
  - exfalso. apply Ha. rewrite <- Hid. apply in_map. exact Hi.
  - exact (IH Hnd' Hi Hx Hid).
Qed.

Lemma ids_filter_NoDup (p : AudioItem -> bool) l :
  NoDup (map id l) -> NoDup (map id (filter p l)).
Proof.
  induction l as [| a l IH]; cbn [map filter]; intros Hnd; [constructor |].
  inversion Hnd as [| ? ? Ha Hnd']; subst.
  destruct (p a); [| exact (IH Hnd')].
  cbn [map]. constructor; [| exact (IH Hnd')].
  intros Hin. apply Ha. apply in_map_iff in Hin.
  destruct Hin as [b [Hb Hin]]. apply filter_In in Hin.
  rewrite <- Hb. apply in_map. exact (proj1 Hin).
Qed.













Lemma findById_unique l j :
  NoDup (map id l) -> In j l -> findById (id j) l = Some j.
Proof.
  induction l as [| a l IH]; cbn [map]; intros Hnd Hj; [contradiction |].
  unfold findById. cbn [find].
  destruct (id a =? id j)%string eqn:E.
  - apply String.eqb_eq in E. f_equal.
    exact (same_id_same_item (a :: l) a j Hnd (or_introl eq_refl) Hj E).
  - destruct Hj as [-> | Hj]; [rewrite String.eqb_refl in E; discriminate |].
    inversion Hnd; subst. apply IH; assumption.
Qed.

(** Ids stay pairwise distinct along every run, manual triggers
    included. *)
Lemma step_ids e h h' :
  NoDup (map id (items h)) -> step e h = Some h' ->
  NoDup (map id (items h')).
Proof.
  intros Hids Hstep. destruct e; cbn [step] in Hstep.
  - destruct key as [k |]; [destruct (truthy (Some k)) |];
      inversion Hstep; subst; exact Hids.
  - destruct (freshId uuid h) eqn:Hfresh; [| discriminate].
    inversion Hstep; subst. unfold handleAddToQueue.
    destruct (trim (formText f) =? "")%string; [exact Hids |].
    unfold freshId in Hfresh. apply andb_prop in Hfresh.
    destruct Hfresh as [Hfi _]. apply negb_true_iff, mem_false_inv in Hfi.
    cbn [items setItems map]. constructor; assumption.
  - inversion Hstep; subst. exact Hids.
  - destruct (effectDue h); [| discriminate].
    inversion Hstep; subst. unfold queueEffect, processQueue.
    cbn [isProcessing clearEffectDue items userApiKey].
    destruct (isProcessing h); cbn [negb]; [| exact Hids].
    destruct (findPending (items h)) as [x |]; [| exact Hids].
    cbn zeta. cbn [userApiKey setItems clearEffectDue].
    destruct (truthy (userApiKey h)); cbn [items startCall setItems clearEffectDue];
      rewrite !updateById_ids by reflexivity; exact Hids.
  - destruct (nth_error (inflight h) k) as [c |]; [| discriminate].
    destruct o as [uuid | err].
    + destruct (freshURL _ _); [| discriminate].
      inversion Hstep; subst. cbn [items resolveCall setItems createObjectURL dropCall].
      rewrite updateById_ids by reflexivity. exact Hids.
    + inversion Hstep; subst. cbn [items rejectCall setItems dropCall].
      rewrite updateById_ids by reflexivity. exact Hids.
  - inversion Hstep; subst. unfold handleGenerateSingle.
    destruct (findById target (items h)) as [item |]; [| exact Hids].
    cbn zeta. cbn [userApiKey setItems].
    destruct (truthy (userApiKey h)); cbn [items startCall setItems];
      rewrite !updateById_ids by reflexivity; exact Hids.
  - inversion Hstep; subst. rewrite handleDelete_items.
    apply ids_filter_NoDup. exact Hids.
Qed.

Lemma reachable_ids evs h :
  run evs initial = Some h -> NoDup (map id (items h)).
Proof.
  assert (Hgen : forall evs g h, NoDup (map id (items g)) ->
                   run evs g = Some h -> NoDup (map id (items h))).
  { clear. induction evs as [| e rest IH]; intros g h Hg Hrun; cbn [run] in Hrun.
    - inversion Hrun; subst. exact Hg.
    - destruct (step e g) as [g1 |] eqn:Hstep; [| discriminate].
      eapply IH; [| exact Hrun]. eapply step_ids; eassumption. }
  intros Hrun. eapply Hgen; [| exact Hrun]. constructor.
Qed.

End ExactInvariant.

Section Claims.




(** C2 (amended).  Each run of the queue effect with the processing flag
    set picks the first [PENDING] job in list order, and [handleAddToQueue]
    puts a new job in front of the list: for jobs enqueued in the order
    J1, J2, J3 (non-blank text, distinct ids) into an empty list, three
    runs of the effect pick J3, J2, J1 in this order, and along every
    automatic schedule (runs of the effect and settlements of calls, each
    fulfilled or rejected) the jobs picked so far are a prefix of
    J3, J2, J1. *)
Theorem queue_drains_newest_first
    (h : State) (f1 f2 f3 : Form) (u1 u2 u3 : string) (t1 t2 t3 : Z) :
  items h = [] -> inflight h = [] ->
  trim (formText f1) <> "" -> trim (formText f2) <> "" ->
  trim (formText f3) <> "" ->
  u1 <> u2 -> u1 <> u3 -> u2 <> u3 ->
  exists h0,
    run [AddToQueue f1 u1 t1; AddToQueue f2 u2 t2; AddToQueue f3 u3 t3;
         StartQueue] h = Some h0
    /\ map id (items h0) = [u3; u2; u1]
    /\ map status (items h0) = [PENDING; PENDING; PENDING]
    /\ (exists h3,
          run [QueueEffect; QueueEffect; QueueEffect] h0 = Some h3
          /\ Forall (fun i => status i <> PENDING) (items h3))
    /\ selections [QueueEffect; QueueEffect; QueueEffect] h0 = [u3; u2; u1]
    /\ (forall sched h',
          forallb automatic sched = true ->
          run sched h0 = Some h' ->
          exists rest, selections sched h0 ++ rest = [u3; u2; u1]).
Proof.
  intros Hitems Hcalls Ht1 Ht2 Ht3 H12 H13 H23.
  set (j1 := newItem f1 u1 t1 (length (items h))).
  set (h1 := setItems (cons j1) h).
  set (j2 := newItem f2 u2 t2 (length (items h1))).
  set (h2 := setItems (cons j2) h1).
  set (j3 := newItem f3 u3 t3 (length (items h2))).
  set (h3 := setItems (cons j3) h2).
  assert (Hlist : items h3 = [j3; j2; j1])
    by (cbn [items setItems h1 h2 h3]; rewrite Hitems; reflexivity).
  assert (Hrun : run [AddToQueue f1 u1 t1; AddToQueue f2 u2 t2;
                      AddToQueue f3 u3 t3; StartQueue] h
                 = Some (startQueue h3)).
  { cbn [run].
    rewrite (enqueue_step f1 u1 t1 h Ht1); [| rewrite Hitems; intros [] | exact Hcalls].
    fold j1 h1.
    rewrite (enqueue_step f2 u2 t2 h1 Ht2);
      [| cbn [items setItems h1 map]; rewrite Hitems;
         intros [H | []]; cbn in H; congruence
       | exact Hcalls].
    fold j2 h2.
    rewrite (enqueue_step f3 u3 t3 h2 Ht3);
      [| cbn [items setItems h1 h2 map]; rewrite Hitems;
         intros [H | [H | []]]; cbn in H; congruence
       | exact Hcalls].
    reflexivity. }
  assert (Hinv : drainInv (startQueue h3) [] [j3; j2; j1]).
  { constructor; cbn [app map].
    - exact Hlist.
    - repeat constructor; cbn; intuition congruence.
    - constructor.
    - repeat constructor.
    - cbn [inflight startQueue setIsProcessing setItems h1 h2 h3].
      rewrite Hcalls. constructor. }
  exists (startQueue h3).
  split; [exact Hrun |].
  split; [cbn [items startQueue setIsProcessing]; rewrite Hlist; reflexivity |].
  split; [cbn [items startQueue setIsProcessing]; rewrite Hlist; reflexivity |].
  destruct (drain_effects [j3; j2; j1] (startQueue h3) [] Hinv)
    as (h' & A' & Hrun3 & Hsel3 & Hinv3); [reflexivity | reflexivity |].
  split.
  { exists h'. split; [exact Hrun3 |].
    destruct Hinv3 as [Hit _ Hst _ _]. rewrite Hit, app_nil_r. exact Hst. }
  split; [exact Hsel3 |].
  intros sched h'' Hauto Hsched.
  destruct (drain_run sched (startQueue h3) h'' [] [j3; j2; j1] Hinv Hauto Hsched)
    as (A2 & B2 & _ & Hsel & Hids).
  exists (map id B2). cbn [app map] in Hsel, Hids.
  rewrite Hsel, <- map_app. exact Hids.
Qed.

Lemma queue_drains_newest_first_witness :
  exists h0,
    run queueStarted initial = Some h0
    /\ map id (items h0) = ["job-3"; "job-2"; "job-1"]
    /\ selections [QueueEffect; QueueEffect; QueueEffect] h0
       = ["job-3"; "job-2"; "job-1"].
Proof.
  destruct (queue_drains_newest_first
              (stateAfter [QueueEffect; ApiKeyLoaded (Some "key")])
              (form "first") (form "second") (form "third")
              "job-1" "job-2" "job-3" 1 2 3)
    as (h0 & Hrun & Hids & _ & _ & Hsel & _);
    try reflexivity; try (vm_compute; discriminate).
  exists h0. split; [| split; [exact Hids | exact Hsel]].
  assert (Hexp : run queueStarted initial = Some (stateAfter queueStarted))
    by (vm_compute; reflexivity).
  rewrite Hexp. rewrite <- Hrun. vm_compute. reflexivity.
Defined.

(** C2 (as stated) fails: with job-1, job-2, job-3 enqueued in this order
    and all [PENDING], the first run of the effect picks job-3, the job
    enqueued last, and the second picks job-2 while job-3 is still
    [GENERATING]. *)
Lemma processQueue_picks_latest_enqueued :
  run queueStarted initial = Some (stateAfter queueStarted)
  /\ map (fun i => (id i, createdAt i, status i)) (items (stateAfter queueStarted))
     = [("job-3", 3%Z, PENDING); ("job-2", 2%Z, PENDING); ("job-1", 1%Z, PENDING)]
  /\ selected QueueEffect (stateAfter queueStarted) = ["job-3"]
  /\ selected QueueEffect (stateAfter queueStarted) <> ["job-1"]
  /\ selections [QueueEffect; QueueEffect] (stateAfter queueStarted)
     = ["job-3"; "job-2"].
Proof.
  split; [vm_compute; reflexivity |].
  split; [vm_compute; reflexivity |].
  split; [vm_compute; reflexivity |].
  split; [vm_compute; discriminate |].
  vm_compute; reflexivity.
Qed.

(** C3, at its failing input: after three jobs are enqueued and the queue
    is started, two runs of the queue effect, with no call settled in
    between, leave two jobs [GENERATING] and two calls in flight; one more
    run starts the third. *)
Theorem processQueue_overlapping_calls :
  forallb automatic [QueueEffect; QueueEffect; QueueEffect] = true
  /\ run overlapRun initial = Some (stateAfter overlapRun)
  /\ map status (items (stateAfter overlapRun))
     = [GENERATING; GENERATING; PENDING]
  /\ map (fun c => id (callItem c)) (inflight (stateAfter overlapRun))
     = ["job-3"; "job-2"]
  /\ (exists h,
        step QueueEffect (stateAfter overlapRun) = Some h
        /\ map status (items h) = [GENERATING; GENERATING; GENERATING]
        /\ length (inflight h) = 3).
Proof.
  split; [reflexivity |].
  split; [vm_compute; reflexivity |].
  split; [vm_compute; reflexivity |].
  split; [vm_compute; reflexivity |].
  eexists. split; [vm_compute; reflexivity |].
  split; vm_compute; reflexivity.
Qed.

(** C5, at its failing input: a job generated once (URL blob:u1),
    re-generated by hand (URL blob:u2) and then deleted.  The only URL ever
    revoked is blob:u2; blob:u1 is still live, and no job refers to it
    from the moment the re-generation succeeds. *)
Theorem regenerate_leaks_object_url :
  run regenerateThenDelete initial = Some (stateAfter regenerateThenDelete)
  /\ map audioUrl (items (stateAfter generateOnce)) = [Some "blob:u1"]
  /\ map audioUrl (items (stateAfter regenerateDone)) = [Some "blob:u2"]
  /\ objectURLs (stateAfter regenerateDone) = ["blob:u1"; "blob:u2"]
  /\ revoked (stateAfter regenerateDone) = []
  /\ items (stateAfter regenerateThenDelete) = []
  /\ revoked (stateAfter regenerateThenDelete) = ["blob:u2"]
  /\ objectURLs (stateAfter regenerateThenDelete) = ["blob:u1"].
Proof.
  repeat (split; [vm_compute; reflexivity |]).
  vm_compute; reflexivity.
Qed.

(** C7.  When the call started for a job fails, the step is defined (the
    failure stays inside the component) and stores a non-empty message,
    [err.message] or the fallback: every record with the job's id becomes
    [ERROR] with that message in [error] and its other fields kept, every
    other record is left as it was, the processing flag is kept and the
    queue effect is due again; if the flag is set and another job is
    [PENDING], the next run of the effect processes the first [PENDING]
    job of the list: with a key it marks that job [GENERATING] and starts
    a [generateSpeech] call for it, without a key it marks it
    [GENERATING] and then [ERROR] with "No API key configured"; the flag
    stays set. *)
Theorem failed_call_marks_only_its_job
    (h : State) (k : nat) (c : Call) (err : Thrown) :
  nth_error (inflight h) k = Some c ->
  exists h' message,
    step (Settle k (Failed err)) h = Some h'
    /\ message
       = or_else (rethrownMessage (model (callItem c)) err)
                 (fallbackMessage (origin c))
    /\ message <> ""
    /\ length (items h') = length (items h)
    /\ (forall n i,
          nth_error (items h) n = Some i -> id i = id (callItem c) ->
          nth_error (items h') n = Some (asError message i)
          /\ status (asError message i) = ERROR
          /\ error (asError message i) = Some message
          /\ audioUrl (asError message i) = audioUrl i
          /\ text (asError message i) = text i)
    /\ (forall n i,
          nth_error (items h) n = Some i -> id i <> id (callItem c) ->
          nth_error (items h') n = Some i)
    /\ isProcessing h' = isProcessing h
    /\ effectDue h' = true
    /\ (forall j,
          isProcessing h = true -> In j (items h) ->
          status j = PENDING -> id j <> id (callItem c) ->
          exists next h'',
            selected QueueEffect h' = [id next]
            /\ status next = PENDING
            /\ In next (items h)
            /\ step QueueEffect h' = Some h''
            /\ findPending (items h') = Some next
            /\ isProcessing h'' = true
            /\ (truthy (userApiKey h) = true ->
                items h'' = updateById (id next) asGenerating (items h')
                /\ inflight h'' = inflight h' ++ [mkCall Automatic next])
            /\ (truthy (userApiKey h) = false ->
                items h''
                = updateById (id next) (asError "No API key configured")
                    (updateById (id next) asGenerating (items h'))
                /\ inflight h'' = inflight h')).
Proof.
  intros Hc.
  set (message := or_else (rethrownMessage (model (callItem c)) err)
                          (fallbackMessage (origin c))).
  exists (rejectCall c (rethrownMessage (model (callItem c)) err) (dropCall k h)).
  exists message.
  assert (Hitems : items (rejectCall c (rethrownMessage (model (callItem c)) err)
                            (dropCall k h))
                   = updateById (id (callItem c)) (asError message) (items h))
    by reflexivity.
  split; [cbn [step]; rewrite Hc; reflexivity |].
  split; [reflexivity |].
  split; [apply or_else_nonempty; destruct (origin c); discriminate |].
  split; [rewrite Hitems; apply updateById_length |].
  split.
  { intros n i Hn Hid. rewrite Hitems, (updateById_nth _ _ _ _ _ Hn).
    apply String.eqb_eq in Hid. rewrite Hid. repeat split. }
  split.
  { intros n i Hn Hid. rewrite Hitems, (updateById_nth _ _ _ _ _ Hn).
    apply String.eqb_neq in Hid. rewrite Hid. reflexivity. }
  split; [reflexivity |].
  split; [reflexivity |].
  intros j Hproc Hin Hst Hid.
  assert (Hin' : In j (updateById (id (callItem c)) (asError message) (items h))).
  { unfold updateById. apply in_map_iff. exists j. split; [| exact Hin].
    apply String.eqb_neq in Hid. rewrite Hid. reflexivity. }
  destruct (findPending_exists _ j Hin' Hst) as [next Hnext].
  destruct (findPending_Some _ _ Hnext) as [Hnin Hnst].
  destruct (effect_processes_next
              (rejectCall c (rethrownMessage (model (callItem c)) err)
                 (dropCall k h))
              next Hproc eq_refl Hnext)
    as (Hstep & Hsel & Hflag & Hkey & Hnokey).
  exists next.
  exists (queueEffect
            (clearEffectDue
               (rejectCall c (rethrownMessage (model (callItem c)) err)
                  (dropCall k h)))).
  split; [exact Hsel |]. split; [exact Hnst |].
  split.
  { unfold updateById in Hnin. apply in_map_iff in Hnin.
    destruct Hnin as [i0 [Heq Hi0]].
    destruct (id i0 =? id (callItem c))%string.
    - subst next. cbn in Hnst. discriminate Hnst.
    - subst next. exact Hi0. }
  split; [exact Hstep |]. split; [exact Hnext |]. split; [exact Hflag |].
  split; [exact Hkey | exact Hnokey].
Qed.

Lemma failed_call_marks_only_its_job_witness :
  exists h' message h'',
    step (Settle 0 (Failed quotaError)) (stateAfter overlapRun) = Some h'
    /\ message = "RESOURCE_EXHAUSTED: You exceeded your current quota."
    /\ map (fun i => (id i, status i, error i)) (items h')
       = [("job-3", ERROR, Some message);
          ("job-2", GENERATING, None);
          ("job-1", PENDING, None)]
    /\ step QueueEffect h' = Some h''
    /\ map (fun i => (id i, status i, error i)) (items h'')
       = [("job-3", ERROR, Some message);
          ("job-2", GENERATING, None);
          ("job-1", GENERATING, None)]
    /\ map (fun c => (origin c, id (callItem c))) (inflight h'')
       = [(Automatic, "job-2"); (Automatic, "job-1")].
Proof.
  destruct (failed_call_marks_only_its_job (stateAfter overlapRun) 0
              (mkCall Automatic (newItem (form "third") "job-3" 3 2))
              quotaError)
    as (h' & message & Hstep & Hmsg & _ & _ & _ & _ & _ & _ & Hnext);
    [vm_compute; reflexivity |].
  destruct (Hnext (newItem (form "first") "job-1" 1 0))
    as (next & h'' & _ & _ & _ & Hstep' & Hfind & _ & Hkey & _);
    [vm_compute; reflexivity | vm_compute; do 2 right; left; reflexivity
     | reflexivity | vm_compute; discriminate |].
  destruct (Hkey ltac:(vm_compute; reflexivity)) as [Hitems Hcalls].
  exists h', message, h''. split; [exact Hstep |].
  split; [rewrite Hmsg; vm_compute; reflexivity |].
  vm_compute in Hstep. inversion Hstep; subst h'.
  vm_compute in Hfind. inversion Hfind; subst next.
  split; [rewrite Hmsg; vm_compute; reflexivity |].
  split; [exact Hstep' |].
  rewrite Hitems, Hcalls, Hmsg. split; vm_compute; reflexivity.
Defined.

(** C8.  In a reachable state, deleting a job [j] of the list by its id:
    if [j] is [SUCCESS] it has a result handle [url], the release step
    revokes [url] while the record is still in the list, and the whole
    deletion has revoked exactly [url]; if [j] has no result handle nothing
    is revoked; afterwards no record with the id is in the list and the
    other records are kept. *)
Theorem handleDelete_releases_then_removes
    (evs : list Event) (h : State) (j : AudioItem) :
  run evs initial = Some h ->
  In j (items h) ->
  (status j = SUCCESS ->
     exists url,
       audioUrl j = Some url
       /\ revoked (handleDelete_release (id j) h) = revoked h ++ [url]
       /\ In j (items (handleDelete_release (id j) h))
       /\ revoked (handleDelete (id j) h) = revoked h ++ [url])
  /\ (audioUrl j = None ->
        revoked (handleDelete (id j) h) = revoked h
        /\ objectURLs (handleDelete (id j) h) = objectURLs h)
  /\ (forall i, In i (items (handleDelete (id j) h)) -> id i <> id j)
  /\ (forall i, In i (items h) -> id i <> id j ->
        In i (items (handleDelete (id j) h)))
  /\ step (Delete (id j)) h = Some (handleDelete (id j) h).
Proof.
  intros Hrun Hin.
  pose proof (findById_unique _ j (reachable_ids _ _ Hrun) Hin) as Hfind.
  split.
  { intros Hst.
    pose proof (reachable_items_cover _ _ Hrun) as Hok.
    rewrite Forall_forall in Hok. destruct (Hok j Hin) as [Hsucc _].
    destruct (truthy_present _ (Hsucc Hst)) as [url [Hurl Hne]].
    exists url. split; [exact Hurl |].
    assert (Hrel : handleDelete_release (id j) h = revokeObjectURL url h).
    { unfold handleDelete_release. rewrite Hfind, Hurl.
      rewrite (truthy_Some _ Hne). reflexivity. }
    split; [rewrite Hrel; reflexivity |].
    split; [rewrite handleDelete_release_items; exact Hin |].
    unfold handleDelete, handleDelete_remove. cbn [revoked setItems].
    rewrite Hrel. reflexivity. }
  split.
  { intros Hnone. unfold handleDelete, handleDelete_remove, handleDelete_release.
    rewrite Hfind, Hnone. split; reflexivity. }
  split; [intros i; apply handleDelete_absent |].
  split; [| reflexivity].
  intros i Hi Hne. rewrite handleDelete_items. apply filter_In.
  split; [exact Hi |]. apply String.eqb_neq in Hne. rewrite Hne. reflexivity.
Qed.

Lemma handleDelete_releases_then_removes_witness :
  revoked (handleDelete "job-1" (stateAfter regenerateDone)) = ["blob:u2"]
  /\ items (handleDelete "job-1" (stateAfter regenerateDone)) = [].
Proof.
  destruct (handleDelete_releases_then_removes regenerateDone
              (stateAfter regenerateDone)
              (asSuccess "blob:u2" (asGenerating (asSuccess "blob:u1"
                 (newItem (form "first") "job-1" 1 0)))))
    as (Hsucc & _); [vm_compute; reflexivity | vm_compute; left; reflexivity |].
  destruct (Hsucc eq_refl) as (url & Hurl & _ & _ & Hrev).
  cbn in Hurl. inversion Hurl; subst url.
  split; [exact Hrev | vm_compute; reflexivity].
Defined.

(** C9.  A call whose job id is no longer in the list can still settle,
    and its settlement, fulfilled or rejected, leaves the list exactly as
    it is; in particular, once the job of an outstanding call has been
    deleted, the settlement changes no record, brings no record with that
    id back and keeps every other job. *)
Theorem late_completion_is_discarded
    (h : State) (k : nat) (c : Call) (o : Outcome) :
  nth_error (inflight h) k = Some c ->
  canSettle o h = true ->
  canSettle o (handleDelete (id (callItem c)) h) = true ->
  ((forall i, In i (items h) -> id i <> id (callItem c)) ->
   exists h', step (Settle k o) h = Some h' /\ items h' = items h)
  /\ (exists h',
        step (Settle k o) (handleDelete (id (callItem c)) h) = Some h'
        /\ items h' = items (handleDelete (id (callItem c)) h)
        /\ (forall i, In i (items h') -> id i <> id (callItem c))
        /\ (forall i, In i (items h) -> id i <> id (callItem c) ->
              In i (items h'))).
Proof.
  intros Hc Hcan Hcan'.
  assert (Hgen : forall g,
             nth_error (inflight g) k = Some c ->
             canSettle o g = true ->
             (forall i, In i (items g) -> id i <> id (callItem c)) ->
             exists g', step (Settle k o) g = Some g' /\ items g' = items g).
  { intros g Hg Hok Habs.
    assert (Hdef : exists g', step (Settle k o) g = Some g').
    { cbn [step]. rewrite Hg. destruct o as [uuid | err]; [| eauto].
      cbn [canSettle] in Hok.
      change (freshURL ("blob:" ++ uuid) (dropCall k g))
        with (freshURL ("blob:" ++ uuid) g).
      rewrite Hok. eauto. }
    destruct Hdef as [g' Hstep]. exists g'. split; [exact Hstep |].
    destruct (settle_items _ _ _ _ _ Hg Hstep) as [f Hf].
    rewrite Hf. apply updateById_absent. exact Habs. }
  split; [apply Hgen; assumption |].
  assert (Hc' : nth_error (inflight (handleDelete (id (callItem c)) h)) k = Some c).
  { unfold handleDelete, handleDelete_remove. cbn [inflight setItems].
    rewrite handleDelete_release_inflight. exact Hc. }
  destruct (Hgen _ Hc' Hcan') as [h' [Hstep Heq]];
    [intros i; apply handleDelete_absent |].
  exists h'. split; [exact Hstep |]. split; [exact Heq |]. split.
  - intros i Hi. rewrite Heq in Hi. revert Hi. apply handleDelete_absent.
  - intros i Hi Hne. rewrite Heq, handleDelete_items. apply filter_In.
    split; [exact Hi |]. apply String.eqb_neq in Hne. rewrite Hne. reflexivity.
Qed.

Lemma late_completion_is_discarded_witness :
  exists h',
    step (Settle 0 (Fulfilled "late"))
         (handleDelete "job-2" (stateAfter deleteInFlight)) = Some h'
    /\ map id (items h') = ["job-3"; "job-1"]
    /\ map status (items h') = [PENDING; PENDING].
Proof.
  destruct (late_completion_is_discarded (stateAfter deleteInFlight) 0
              (mkCall Manual (newItem (form "second") "job-2" 2 1))
              (Fulfilled "late"))
    as [_ (h' & Hstep & Heq & _)]; try (vm_compute; reflexivity).
  exists h'. split; [exact Hstep |].
  rewrite Heq. split; vm_compute; reflexivity.
Defined.

(** C10.  [handleGenerateSingle] called with an id that no job in the list
    carries returns the state it was called in: no call is started, and
    the list, the processing flag and everything else are unchanged. *)
Theorem handleGenerateSingle_unknown_id (h : State) (target : string) :
  ~ In target (map id (items h)) ->
  handleGenerateSingle target h = h
  /\ step (GenerateSingle target) h = Some h
  /\ inflight (handleGenerateSingle target h) = inflight h
  /\ items (handleGenerateSingle target h) = items h
  /\ isProcessing (handleGenerateSingle target h) = isProcessing h.
Proof.
  intros Habs.
  assert (Hfind : findById target (items h) = None).
  { destruct (findById target (items h)) as [i |] eqn:E; [| reflexivity].
    destruct (findById_Some _ _ _ E) as [Hin Hid].
    exfalso. apply Habs. rewrite <- Hid. apply in_map. exact Hin. }
  assert (Hsame : handleGenerateSingle target h = h)
    by (unfold handleGenerateSingle; rewrite Hfind; reflexivity).
  cbn [step]. rewrite Hsame. repeat split.
Qed.

Lemma handleGenerateSingle_unknown_id_witness :
  handleGenerateSingle "job-9" (stateAfter overlapRun) = stateAfter overlapRun.
Proof.
  apply (handleGenerateSingle_unknown_id (stateAfter overlapRun) "job-9").
  vm_compute. intros [H | [H | [H | []]]]; discriminate H.
Defined.

End Claims.

(** ** Further properties of the encoder *)

Section EncoderFrame.

Lemma charCodes_length (s : string) : length (charCodes s) = String.length s.
Proof.
  unfold charCodes. rewrite length_map.
  induction s as [| c s IH]; cbn; [reflexivity | rewrite IH; reflexivity].
Qed.

Lemma store_length (buf : ArrayBuffer) (off : nat) (bs : list byte) buf' :
  store buf off bs = Some buf' -> length buf' = length buf.
Proof.
  unfold store. destruct (off + length bs <=? length buf)%nat eqn:E;
    [| discriminate].
  intros H. inversion H; subst. apply Nat.leb_le in E.
  rewrite !length_app, firstn_length_le, length_skipn by lia. lia.
Qed.

(** The loop of [writeString] when all of the codes fit. *)
Lemma writeCodes_fits (codes : list Z) : forall view offset i,
  offset + i + length codes <= length view ->
  writeCodes view offset i codes
  = Some (firstn (offset + i) view ++ map byte.of_Z codes
          ++ skipn (offset + i + length codes) view).
Proof.
  induction codes as [| c rest IH]; intros view offset i Hfit; cbn [writeCodes].
  - cbn [map length app]. rewrite Nat.add_0_r, firstn_skipn. reflexivity.
  - cbn [length] in Hfit. unfold setUint8, store. cbn [length].
    replace (offset + i + 1 <=? length view)%nat with true
      by (symmetry; apply Nat.leb_le; lia).
    set (front := firstn (offset + i) view).
    set (back := skipn (offset + i + 1) view).
    assert (Hfront : length front = offset + i)
      by (unfold front; apply firstn_length_le; lia).
    assert (Hlen : length (front ++ [byte.of_Z c] ++ back) = length view).
    { unfold back. rewrite !length_app, Hfront, length_skipn. cbn [length]. lia. }
    rewrite IH by (rewrite Hlen; lia).
    f_equal. cbn [map length].
    replace (offset + S i) with (length front + 1) by lia.
    rewrite firstn_app, firstn_all2 by lia.
    replace (length front + 1 - length front) with 1 by lia.
    cbn [app firstn]. rewrite <- app_assoc. cbn [app]. f_equal. f_equal. f_equal.
    replace (length front + 1 + length rest)
      with (length (front ++ [byte.of_Z c]) + length rest)
      by (rewrite length_app; cbn [length]; lia).
    change (front ++ byte.of_Z c :: back) with (front ++ [byte.of_Z c] ++ back).
    rewrite app_assoc, skipn_app, skipn_all2 by lia.
    replace (length (front ++ [byte.of_Z c]) + length rest
             - length (front ++ [byte.of_Z c])) with (length rest) by lia.
    cbn [app]. unfold back. rewrite skipn_skipn. f_equal. lia.
Qed.

(** The loop of [writeString] when one of the codes falls outside. *)
Lemma writeCodes_overflow (codes : list Z) : forall view offset i,
  length view < offset + i + length codes -> codes <> [] ->
  writeCodes view offset i codes = None.
Proof.
  induction codes as [| c rest IH]; intros view offset i Hout Hne;
    [contradiction |].
  cbn [writeCodes length] in *. unfold setUint8.
  destruct (store view (offset + i) [byte.of_Z c]) as [view' |] eqn:E;
    [| reflexivity].
  pose proof (store_length _ _ _ _ E) as Hlen.
  unfold store in E. cbn [length] in E.
  destruct (offset + i + 1 <=? length view)%nat eqn:Hle; [| discriminate].
  apply Nat.leb_le in Hle.
  apply IH; [rewrite Hlen; lia |].
  destruct rest; [cbn [length] in Hout; lia | discriminate].
Qed.

(** X1.  [writeString] either writes the character codes of the string
    at the offset, leaving every other byte and the length of the buffer
    as they were, or, when the string is not empty and does not fit
    between the offset and the end of the buffer, throws. *)
Theorem writeString_frame (view : ArrayBuffer) (offset : nat) (s : string) :
  writeString view offset s
  = if (offset + String.length s <=? length view)%nat
    then Some (firstn offset view ++ map byte.of_Z (charCodes s)
               ++ skipn (offset + String.length s) view)
    else if (s =? "")%string then Some view else None.
Proof.
  unfold writeString.
  destruct (offset + String.length s <=? length view)%nat eqn:Hfit.
  - apply Nat.leb_le in Hfit.
    rewrite writeCodes_fits by (rewrite charCodes_length; lia).
    rewrite charCodes_length, !Nat.add_0_r. reflexivity.
  - apply Nat.leb_gt in Hfit. destruct s as [| c s]; [reflexivity |].
    cbn [String.eqb]. apply writeCodes_overflow.
    + rewrite charCodes_length. lia.
    + discriminate.
Qed.

(** X2.  For all data, and for all rates and channel counts that are,
    with the byte rate [sampleRate * (numChannels * 2)], below 2^53 in
    absolute value (where the code's double products are exact), in the
    range of their header fields or not, the numeric header fields of the
    file hold the encoder's values modulo the width of the field: 2^32
    for the chunk size, the sample rate, the byte rate and the data size,
    2^16 for the channel count and the block alignment. *)
Theorem pcmToWav_fields_modulo (pcmData : list byte) (sampleRate numChannels : Z) :
  (Z.abs sampleRate < 2 ^ 53)%Z ->
  (Z.abs numChannels < 2 ^ 53)%Z ->
  (Z.abs (sampleRate * (numChannels * 2)) < 2 ^ 53)%Z ->
  exists buf,
    pcmToWav pcmData sampleRate numChannels = Some (mkBlob buf "audio/wav")
    /\ getUint32 buf 4 = Some ((36 + Z.of_nat (length pcmData)) mod 2 ^ 32)%Z
    /\ getUint16 buf 22 = Some (numChannels mod 2 ^ 16)%Z
    /\ getUint32 buf 24 = Some (sampleRate mod 2 ^ 32)%Z
    /\ getUint32 buf 28 = Some ((sampleRate * (numChannels * 2)) mod 2 ^ 32)%Z
    /\ getUint16 buf 32 = Some ((numChannels * 2) mod 2 ^ 16)%Z
    /\ getUint32 buf 40 = Some (Z.of_nat (length pcmData) mod 2 ^ 32)%Z.
Proof.
  intros _ _ _.
  eexists. split; [apply pcmToWav_eq |].
  unfold wavHeader, charCodes.
  rewrite !le_split_4, !le_split_2.
  cbn [list_ascii_of_string map app].
  repeat apply conj.
  all: unfold getUint32, getUint16;
    cbn [Nat.add length Nat.leb firstn skipn app];
    rewrite <- ?le_split_4, <- ?le_split_2, ?le_combine_split; reflexivity.
Qed.

Lemma pcmToWav_fields_modulo_witness :
  exists buf,
    pcmToWav [Byte.x00; Byte.x00] (-1) 65537 = Some (mkBlob buf "audio/wav")
    /\ getUint16 buf 22 = Some 1%Z
    /\ getUint32 buf 24 = Some 4294967295%Z
    /\ getUint32 buf 28 = Some 4294836222%Z
    /\ getUint16 buf 32 = Some 2%Z.
Proof.
  destruct (pcmToWav_fields_modulo [Byte.x00; Byte.x00] (-1) 65537)
    as (buf & Hbuf & _ & Hch & Hrate & Hbytes & Halign & _);
    [vm_compute; reflexivity .. |].
  exists buf. split; [exact Hbuf |].
  split; [exact Hch |]. split; [exact Hrate |].
  split; [exact Hbytes | exact Halign].
Defined.

End EncoderFrame.

(** ** Further properties of the job list *)

Import Speech HistoryItem HomeView Voices Examples.

Section EnteredFields.

Lemma trimStartChars_noLeading l : noLeadingSpace (trimStartChars l).
Proof.
  induction l as [| c l IH]; cbn; [exact I |].
  destruct (isSpace c) eqn:E; [exact IH | exact E].
Qed.

Lemma trimStartChars_fixed l : noLeadingSpace l -> trimStartChars l = l.
Proof.
  destruct l as [| c l]; cbn; [reflexivity |]. intros ->. reflexivity.
Qed.

Lemma trimStartChars_split l : exists sp, l = sp ++ trimStartChars l.
Proof.
  induction l as [| c l [sp IH]]; [exists []; reflexivity |].
  cbn. destruct (isSpace c).
  - exists (c :: sp). cbn. rewrite <- IH. reflexivity.
  - exists []. reflexivity.
Qed.

Lemma trimEnd_noLeading m :
  noLeadingSpace m -> noLeadingSpace (rev (trimStartChars (rev m))).
Proof.
  intros Hm. destruct (trimStartChars_split (rev m)) as [sp Hsp].
  apply (f_equal (@rev ascii)) in Hsp. rewrite rev_involutive, rev_app_distr in Hsp.
  destruct (rev (trimStartChars (rev m))) as [| c r]; [exact I |].
  subst m. exact Hm.
Qed.

Lemma trim_idempotent (s : string) : trim (trim s) = trim s.
Proof.
  unfold trim. rewrite list_ascii_of_string_of_list_ascii.
  set (m := trimStartChars (list_ascii_of_string s)).
  assert (Hm : noLeadingSpace m) by apply trimStartChars_noLeading.
  rewrite (trimStartChars_fixed _ (trimEnd_noLeading m Hm)).
  rewrite rev_involutive.
  rewrite (trimStartChars_fixed (trimStartChars (rev m)))
    by apply trimStartChars_noLeading.
  reflexivity.
Qed.

Lemma padStart2_nonempty n : padStart2 n <> "".
Proof.
  unfold padStart2.
  destruct (String.length (NilZero.string_of_uint (Nat.to_uint n)) <? 2)%nat eqn:E.
  - discriminate.
  - apply Nat.ltb_ge in E. intros H. rewrite H in E. cbn in E. lia.
Qed.

Lemma newItem_entered f uuid now n :
  trim (formText f) <> "" -> enteredFields (newItem f uuid now n).
Proof.
  intros Htext. unfold enteredFields, trimmed. cbn [newItem text label systemInstruction].
  split; [split; [exact Htext | apply trim_idempotent] |].
  split.
  - eexists. split; [reflexivity |]. apply or_else_nonempty, padStart2_nonempty.
  - destruct (trim (formSystemInstruction f) =? "")%string eqn:E; [exact I |].
    split; [apply String.eqb_neq; exact E | apply trim_idempotent].
Qed.

(** A property of the records that every status update keeps and every
    enqueued job has holds of all jobs of a reachable state. *)
Lemma step_Forall_event (P : AudioItem -> Prop) (e : Event) :
  (forall i, P i -> P (asGenerating i)) ->
  (forall url i, P i -> P (asSuccess url i)) ->
  (forall m i, P i -> P (asError m i)) ->
  (forall f uuid now n,
      e = AddToQueue f uuid now -> trim (formText f) <> "" ->
      P (newItem f uuid now n)) ->
  forall h h',
    step e h = Some h' -> Forall P (items h) -> Forall P (items h').
Proof.
  intros Hg Hs He Hn h h' Hstep Hok.
  assert (Hstart : forall o target fallback item g,
             Forall P (items g) ->
             Forall P
               (items
                  (let g := setItems (updateById target asGenerating) g in
                   if truthy (userApiKey g) then startCall o item g
                   else setItems
                          (updateById target
                             (asError (or_else "No API key configured" fallback)))
                          g))).
  { intros o target fallback item g Hg0. cbn zeta.
    destruct (truthy (userApiKey _)); cbn [items startCall setItems];
      repeat (apply updateById_Forall; auto). }
  destruct e; cbn [step] in Hstep.
  - destruct key as [k |]; [destruct (truthy (Some k)) |];
      inversion Hstep; subst; exact Hok.
  - destruct (freshId uuid h); [| discriminate].
    inversion Hstep; subst. unfold handleAddToQueue.
    destruct (trim (formText f) =? "")%string eqn:E; [exact Hok |].
    cbn [items setItems]. constructor; [| exact Hok].
    apply (Hn _ _ _ _ eq_refl). apply String.eqb_neq. exact E.
  - inversion Hstep; subst. exact Hok.
  - destruct (effectDue h); [| discriminate].
    inversion Hstep; subst. unfold queueEffect, processQueue.
    cbn [isProcessing clearEffectDue items userApiKey].
    destruct (isProcessing h); cbn [negb]; [| exact Hok].
    destruct (findPending (items h)) as [nextItem |]; [| exact Hok].
    apply (Hstart Automatic (id nextItem) "Failed to generate" nextItem
             (clearEffectDue h)). exact Hok.
  - destruct (nth_error (inflight h) k) as [c |]; [| discriminate].
    destruct o as [uuid | err].
    + destruct (freshURL _ _); [| discriminate].
      inversion Hstep; subst.
      cbn [items resolveCall setItems createObjectURL dropCall].
      apply updateById_Forall; auto.
    + inversion Hstep; subst. cbn [items rejectCall setItems dropCall].
      apply updateById_Forall; auto.
  - inversion Hstep; subst. unfold handleGenerateSingle.
    destruct (findById target (items h)) as [item |]; [| exact Hok].
    apply (Hstart Manual target "Failed" item h). exact Hok.
  - inversion Hstep; subst. rewrite handleDelete_items.
    apply Forall_forall. intros i Hi. apply filter_In in Hi.
    exact (proj1 (Forall_forall _ _) Hok i (proj1 Hi)).
Qed.

Lemma step_Forall (P : AudioItem -> Prop) :
  (forall i, P i -> P (asGenerating i)) ->
  (forall url i, P i -> P (asSuccess url i)) ->
  (forall m i, P i -> P (asError m i)) ->
  (forall f uuid now n, trim (formText f) <> "" -> P (newItem f uuid now n)) ->
  forall e h h',
    step e h = Some h' -> Forall P (items h) -> Forall P (items h').
Proof.
  intros Hg Hs He Hn e h h' Hstep Hok.
  apply (step_Forall_event P e Hg Hs He) with (h := h); auto.
Qed.

Lemma run_Forall (P : AudioItem -> Prop) :
  (forall i, P i -> P (asGenerating i)) ->
  (forall url i, P i -> P (asSuccess url i)) ->
  (forall m i, P i -> P (asError m i)) ->
  (forall f uuid now n, trim (formText f) <> "" -> P (newItem f uuid now n)) ->
  forall evs h h',
    run evs h = Some h' -> Forall P (items h) -> Forall P (items h').
Proof.
  intros Hg Hs He Hn.
  induction evs as [| e rest IH]; intros h h' Hrun Hok; cbn [run] in Hrun.
  - inversion Hrun; subst. exact Hok.
  - destruct (step e h) as [h1 |] eqn:Hstep; [| discriminate].
    eapply IH; [exact Hrun |]. eapply (step_Forall P); eassumption.
Qed.

Lemma reachable_entered evs h :
  run evs initial = Some h -> Forall enteredFields (items h).
Proof.
  intros Hrun.
  apply (run_Forall enteredFields) with (evs := evs) (h := initial);
    try exact Hrun; try (intros; assumption).
  - intros. apply newItem_entered. assumption.
  - constructor.
Qed.

Lemma enqueuedBy_more past more i :
  enqueuedBy past i -> enqueuedBy (past ++ more) i.
Proof.
  intros (f & uuid & now & count & Hin & Hne & Hsame).
  exists f, uuid, now, count.
  split; [apply in_or_app; left; exact Hin |]. split; assumption.
Qed.

Lemma run_enqueued : forall evs past g h,
  run evs g = Some h ->
  Forall (enqueuedBy past) (items g) ->
  Forall (enqueuedBy (past ++ evs)) (items h).
Proof.
  induction evs as [| e rest IH]; intros past g h Hrun Hok; cbn [run] in Hrun.
  - inversion Hrun; subst. rewrite app_nil_r. exact Hok.
  - destruct (step e g) as [g1 |] eqn:Hstep; [| discriminate].
    replace (past ++ e :: rest) with ((past ++ [e]) ++ rest)
      by (rewrite <- app_assoc; reflexivity).
    apply (IH (past ++ [e]) g1 h Hrun).
    apply (step_Forall_event (enqueuedBy (past ++ [e])) e) with (h := g);
      try exact Hstep.
    + intros i (f & uuid & now & count & Hin & Hne & Hsame).
      exists f, uuid, now, count. repeat split; try assumption; apply Hsame.
    + intros url i (f & uuid & now & count & Hin & Hne & Hsame).
      exists f, uuid, now, count. repeat split; try assumption; apply Hsame.
    + intros m i (f & uuid & now & count & Hin & Hne & Hsame).
      exists f, uuid, now, count. repeat split; try assumption; apply Hsame.
    + intros f uuid now n -> Hne. exists f, uuid, now, n.
      split; [apply in_or_app; right; left; reflexivity |].
      split; [exact Hne |]. repeat split.
    + apply Forall_forall. intros i Hi. apply enqueuedBy_more.
      exact (proj1 (Forall_forall _ _) Hok i Hi).
Qed.

(** X3.  Every job of a reachable state still carries what
    [handleAddToQueue] made of the form when the job was enqueued: one of
    the events of the run is a click on "Add to Queue" with a text that
    is not blank, and the job's id, text, label, system instruction,
    voice, model and creation time are those of the record made at that
    click, whatever pick-ups, completions, failures, manual triggers and
    deletions came after it.  So its text is not empty and has no white
    space at either end, its label is not empty, and its system
    instruction is either absent or not empty and without white space at
    either end. *)
Theorem reachable_jobs_keep_entered_fields
    (evs : list Event) (h : State) (i : AudioItem) :
  run evs initial = Some h -> In i (items h) ->
  enteredFields i
  /\ exists f uuid now count,
       In (AddToQueue f uuid now) evs
       /\ trim (formText f) <> ""
       /\ sameEntered i (newItem f uuid now count).
Proof.
  intros Hrun Hin. split.
  - exact (proj1 (Forall_forall _ _) (reachable_entered evs h Hrun) i Hin).
  - assert (Hall : Forall (enqueuedBy ([] ++ evs)) (items h))
      by (apply (run_enqueued evs [] initial h Hrun); constructor).
    exact (proj1 (Forall_forall _ _) Hall i Hin).
Qed.

Lemma reachable_jobs_keep_entered_fields_witness :
  enteredFields
    (asGenerating (asSuccess "blob:u1" (newItem (form "first") "job-1" 1 0)))
  /\ exists f uuid now count,
       In (AddToQueue f uuid now) regenerateStarted
       /\ trim (formText f) <> ""
       /\ sameEntered
            (asGenerating (asSuccess "blob:u1" (newItem (form "first") "job-1" 1 0)))
            (newItem f uuid now count).
Proof.
  apply (reachable_jobs_keep_entered_fields regenerateStarted
           (stateAfter regenerateStarted)).
  - vm_compute. reflexivity.
  - vm_compute. left. reflexivity.
Defined.

(** X4.  For every job of a reachable state, the prompt [generateSpeech]
    builds from the job is its text when it has no system instruction,
    and otherwise the stored instruction, unchanged by the second
    [trim], a line feed and the text. *)
Theorem prompt_of_queued_job (evs : list Event) (h : State) (i : AudioItem) :
  run evs initial = Some h -> In i (items h) ->
  finalPrompt (callParams i)
  = match systemInstruction i with
    | Some instruction => (instruction ++ newline ++ text i)%string
    | None => text i
    end.
Proof.
  intros Hrun Hin.
  pose proof (proj1 (Forall_forall _ _) (reachable_entered evs h Hrun) i Hin)
    as (_ & _ & Hinstr).
  unfold finalPrompt, callParams. cbn [paramSystemInstruction paramText].
  destruct (systemInstruction i) as [instruction |]; [| reflexivity].
  destruct Hinstr as [Hne Htrim].
  rewrite Htrim, (truthy_Some _ Hne). reflexivity.
Qed.

Lemma prompt_of_queued_job_witness :
  exists i,
    In i (items (stateAfter newsRun))
    /\ text i = "Good evening."
    /\ label i = Some "intro"
    /\ finalPrompt (callParams i)
       = ("You are a professional news anchor." ++ newline ++ "Good evening.")%string.
Proof.
  exists (newItem newsForm "job-1" 1 0).
  assert (Hin : In (newItem newsForm "job-1" 1 0) (items (stateAfter newsRun)))
    by (vm_compute; left; reflexivity).
  split; [exact Hin |].
  split; [vm_compute; reflexivity |]. split; [vm_compute; reflexivity |].
  rewrite (prompt_of_queued_job newsRun (stateAfter newsRun) _
             ltac:(vm_compute; reflexivity) Hin).
  vm_compute. reflexivity.
Defined.

End EnteredFields.

(** ** Properties of [generateSpeech] and of the messages shown *)

Section SpeechResults.

Lemma rethrownMessage_classify model error :
  rethrownMessage model error
  = if includes (thrownMessage error) "404" then
      ("Model '" ++ model
       ++ "' not found (404). It may be deprecated or incorrect.")%string
    else if includes (thrownMessage error) "modality"
            || includes (thrownMessage error) "AUDIO" then
      ("The model '" ++ model
       ++ "' does not support Audio generation. Please select a compatible TTS model.")%string
    else if includes (thrownMessage error) "500"
            || includes (thrownMessage error) "503" then
      "Google API Service Error. Please try again later."
    else thrownMessage error.
Proof. destruct error; reflexivity. Qed.

(** X5.  A response that carries no audio data and no text part, be it
    without candidates, without parts, without a matching part, or with a
    first matching part that has an audio MIME type and empty data, is
    rejected with the message "No audio data found in response.", which
    the [catch] block of [generateSpeech] leaves as it is; stored on a
    job, the message is shown as the audio-generation failure. *)
Theorem response_without_audio_is_rejected
    (atob : string -> option string) (atobError : Thrown)
    (p : GenerateSpeechParams) (response : Response) :
  match audioPartOf response with
  | Some part => truthy (partData part)
  | None => false
  end = false ->
  textPartOf response = None ->
  generateSpeech atob atobError p (inr response)
  = inl "No audio data found in response."
  /\ forall o i,
       shownError
         (asError (or_else "No audio data found in response." (fallbackMessage o)) i)
       = "🎵 Audio generation failed. Model may not support TTS.".
Proof.
  intros Haudio Htext. split; [| intros o i; vm_compute; reflexivity].
  assert (Hno : noAudioError response
                = ThrownObject (Some "No audio data found in response.") None)
    by (unfold noAudioError; rewrite Htext; reflexivity).
  unfold generateSpeech.
  destruct (audioPartOf response) as [part |].
  - destruct (partData part) as [base64Data |].
    + rewrite Haudio, Hno. reflexivity.
    + rewrite Hno. reflexivity.
  - rewrite Hno. reflexivity.
Qed.

Lemma response_without_audio_is_rejected_witness :
  generateSpeech atobExample (ThrownString "bad") previewParams
    (inr emptyAudioResponse)
  = inl "No audio data found in response.".
Proof.
  apply (response_without_audio_is_rejected atobExample (ThrownString "bad")
           previewParams emptyAudioResponse); vm_compute; reflexivity.
Defined.

Lemma wavLayout_in_range (pcmData : list byte) (sampleRate numChannels : Z) :
  (36 + Z.of_nat (length pcmData) < 2 ^ 32)%Z ->
  (0 <= sampleRate < 2 ^ 32)%Z ->
  (0 <= numChannels)%Z ->
  (numChannels * 2 < 2 ^ 16)%Z ->
  (sampleRate * numChannels * 2 < 2 ^ 32)%Z ->
  wavLayout (wavHeader (length pcmData) sampleRate numChannels ++ pcmData)
    pcmData sampleRate numChannels.
Proof.
  intros Hsize Hrate Hch Halign Hbyte.
  unfold wavLayout, wavHeader, charCodes.
  rewrite !le_split_4, !le_split_2.
  cbn [list_ascii_of_string map app].
  repeat apply conj.
  all: unfold getUint32, getUint16, slice;
    cbn [Nat.add Nat.sub length Nat.leb firstn skipn app];
    rewrite <- ?le_split_4, <- ?le_split_2, ?le_combine_split.
  all: try reflexivity.
  all: f_equal.
  all: change (Z.of_nat 4 * 8)%Z with 32%Z; change (Z.of_nat 2 * 8)%Z with 16%Z.
  all: try (apply Z.mod_small; lia).
  rewrite Z.mul_assoc. apply Z.mod_small. nia.
Qed.

Lemma charCodes_bytes (s : string) :
  map byte.unsigned (map byte.of_Z (charCodes s)) = charCodes s.
Proof.
  unfold charCodes. rewrite !map_map. apply map_ext. intros c.
  rewrite byte.unsigned_of_Z. unfold byte.wrap.
  apply Z.mod_small. pose proof (N_ascii_bounded c). lia.
Qed.

(** X6.  When the first matching part of the response has data that
    [atob] decodes to a binary string of fewer than 2^32 - 36 characters,
    [generateSpeech] returns a blob of type audio/wav laid out as the WAV
    container of the decoded bytes at 24000 Hz, one channel; the bytes
    after the header are the character codes of the binary string. *)
Theorem generateSpeech_returns_wav
    (atob : string -> option string) (atobError : Thrown)
    (p : GenerateSpeechParams) (response : Response)
    (part : Part) (base64Data binaryString : string) :
  audioPartOf response = Some part ->
  partData part = Some base64Data ->
  base64Data <> "" ->
  atob base64Data = Some binaryString ->
  (36 + Z.of_nat (String.length binaryString) < 2 ^ 32)%Z ->
  exists buf,
    generateSpeech atob atobError p (inr response) = inr (mkBlob buf "audio/wav")
    /\ wavLayout buf (map byte.of_Z (charCodes binaryString)) 24000 1
    /\ length buf = 44 + String.length binaryString
    /\ map byte.unsigned (skipn 44 buf) = charCodes binaryString.
Proof.
  intros Hpart Hdata Hne Hatob Hsize.
  set (pcm := map byte.of_Z (charCodes binaryString)).
  assert (Hlen : length pcm = String.length binaryString)
    by (unfold pcm; rewrite length_map; apply charCodes_length).
  exists (wavHeader (length pcm) 24000 1 ++ pcm).
  assert (Hlayout : wavLayout (wavHeader (length pcm) 24000 1 ++ pcm) pcm 24000 1)
    by (apply wavLayout_in_range; rewrite ?Hlen; lia).
  split.
  - unfold generateSpeech, base64ToBytes.
    rewrite Hpart, Hdata, (truthy_Some _ Hne), Hatob.
    fold pcm. rewrite pcmToWav_eq. reflexivity.
  - split; [exact Hlayout |].
    destruct Hlayout as (Hl & Hrest). split; [rewrite Hl, Hlen; reflexivity |].
    assert (Hcopy : skipn 44 (wavHeader (length pcm) 24000 1 ++ pcm) = pcm).
    { destruct Hrest
        as (_ & _ & _ & _ & _ & _ & _ & _ & _ & _ & _ & _ & _ & Hcopy).
      exact Hcopy. }
    rewrite Hcopy. apply charCodes_bytes.
Qed.

Lemma generateSpeech_returns_wav_witness :
  exists buf,
    generateSpeech atobExample (ThrownString "bad") previewParams
      (inr audioResponse) = inr (mkBlob buf "audio/wav")
    /\ length buf = 48
    /\ getUint32 buf 24 = Some 24000%Z
    /\ getUint32 buf 28 = Some 48000%Z.
Proof.
  assert (Hpart : audioPartOf audioResponse
                  = Some (mkPart None
                            (Some (mkInlineData (Some "audio/L16;rate=24000")
                                     (Some "AAAAAA==")))))
    by (vm_compute; reflexivity).
  assert (Hne : "AAAAAA==" <> "") by discriminate.
  assert (Hatob : atobExample "AAAAAA==" = Some fourZeros)
    by (vm_compute; reflexivity).
  assert (Hsize : (36 + Z.of_nat (String.length fourZeros) < 2 ^ 32)%Z)
    by (vm_compute; reflexivity).
  destruct (generateSpeech_returns_wav atobExample (ThrownString "bad")
              previewParams audioResponse _ "AAAAAA==" fourZeros
              Hpart eq_refl Hne Hatob Hsize)
    as (buf & Hrun & Hlayout & Hlen & _).
  exists buf. split; [exact Hrun |]. split; [exact Hlen |].
  destruct Hlayout as (_ & _ & _ & _ & _ & _ & _ & _ & Hrate & Hbyte & _).
  split; [exact Hrate | exact Hbyte].
Defined.

(** X7.  The text [parseErrorMessage] returns is never longer than 100
    characters: a long message without a known keyword is replaced by a
    fixed text. *)
Theorem parseErrorMessage_bounded (error : string) :
  String.length (parseErrorMessage error) <= 100.
Proof.
  unfold parseErrorMessage.
  repeat match goal with
         | |- context [if ?c then _ else _] => destruct c eqn:?
         end;
    try (apply Nat.leb_le; vm_compute; reflexivity).
  apply Nat.ltb_ge. assumption.
Qed.

(** X8.  What the user reads after a call for one of the two models of
    [MODELS] failed, by the class [generateSpeech] puts the error in: an
    error message with "404" is shown as "Model not available", one with
    "modality" or "AUDIO" (and no "404") as "Audio generation failed",
    and one with "500" or "503" (and none of the former), for any model,
    as the service error text, whatever else the message says. *)
Theorem classified_failures_shown
    (model : string) (thrown : Thrown) (o : Origin) (i : AudioItem) :
  let shown :=
    shownError
      (asError (or_else (rethrownMessage model thrown) (fallbackMessage o)) i) in
  (In model MODEL_IDS -> includes (thrownMessage thrown) "404" = true ->
   shown = "❌ Model not available. Try a different model.")
  /\ (In model MODEL_IDS -> includes (thrownMessage thrown) "404" = false ->
      includes (thrownMessage thrown) "modality"
      || includes (thrownMessage thrown) "AUDIO" = true ->
      shown = "🎵 Audio generation failed. Model may not support TTS.")
  /\ (includes (thrownMessage thrown) "404" = false ->
      includes (thrownMessage thrown) "modality"
      || includes (thrownMessage thrown) "AUDIO" = false ->
      includes (thrownMessage thrown) "500"
      || includes (thrownMessage thrown) "503" = true ->
      shown = "Google API Service Error. Please try again later.").
Proof.
  cbv zeta. rewrite rethrownMessage_classify.
  split; [| split].
  - intros Hmodel H404. rewrite H404.
    destruct Hmodel as [<- | [<- | []]]; vm_compute; reflexivity.
  - intros Hmodel H404 Haudio. rewrite H404, Haudio.
    destruct Hmodel as [<- | [<- | []]]; vm_compute; reflexivity.
  - intros H404 Haudio H5. rewrite H404, Haudio, H5. vm_compute. reflexivity.
Qed.

Lemma classified_failures_shown_witness :
  shownError
    (asError
       (or_else
          (rethrownMessage "gemini-2.5-flash-preview-tts"
             (ThrownObject (Some "got status: 404 NOT_FOUND") None))
          (fallbackMessage Manual))
       (newItem (form "first") "job-1" 1 0))
  = "❌ Model not available. Try a different model.".
Proof.
  apply (proj1 (classified_failures_shown "gemini-2.5-flash-preview-tts"
                  (ThrownObject (Some "got status: 404 NOT_FOUND") None)
                  Manual (newItem (form "first") "job-1" 1 0))).
  - left. reflexivity.
  - vm_compute. reflexivity.
Defined.

(** X9.  An error of the API whose message contains "RESOURCE_EXHAUSTED"
    and none of "404", "modality", "AUDIO", "500" and "503" reaches the
    job unchanged, for any model and either trigger, and is shown as the
    rate-limit text. *)
Theorem quota_error_shown_as_rate_limit
    (model : string) (thrown : Thrown) (o : Origin) (i : AudioItem) :
  includes (thrownMessage thrown) "RESOURCE_EXHAUSTED" = true ->
  includes (thrownMessage thrown) "404" = false ->
  includes (thrownMessage thrown) "modality" = false ->
  includes (thrownMessage thrown) "AUDIO" = false ->
  includes (thrownMessage thrown) "500" = false ->
  includes (thrownMessage thrown) "503" = false ->
  error
    (asError (or_else (rethrownMessage model thrown) (fallbackMessage o)) i)
  = Some (thrownMessage thrown)
  /\ shownError
       (asError (or_else (rethrownMessage model thrown) (fallbackMessage o)) i)
     = "⚠️ Rate limit reached. Please wait 60 seconds and try again.".
Proof.
  intros Hquota H404 Hmod Haudio H500 H503.
  rewrite rethrownMessage_classify, H404, Hmod, Haudio, H500, H503.
  cbn [orb].
  assert (Hne : thrownMessage thrown <> "").
  { intros Hempty. rewrite Hempty in Hquota. discriminate Hquota. }
  assert (Hkeep : or_else (thrownMessage thrown) (fallbackMessage o)
                  = thrownMessage thrown).
  { unfold or_else. apply String.eqb_neq in Hne. rewrite Hne. reflexivity. }
  rewrite Hkeep. split; [reflexivity |].
  unfold shownError. cbn [asError error orDefault].
  assert (Hshown : or_else (thrownMessage thrown) "Generation failed"
                   = thrownMessage thrown).
  { unfold or_else. apply String.eqb_neq in Hne. rewrite Hne. reflexivity. }
  rewrite Hshown. unfold parseErrorMessage.
  rewrite Hquota, !orb_true_r. reflexivity.
Qed.

Lemma quota_error_shown_as_rate_limit_witness :
  shownError
    (asError (or_else (rethrownMessage "gemini-2.5-flash-preview-tts" quotaError)
                (fallbackMessage Automatic))
       (newItem (form "first") "job-1" 1 0))
  = "⚠️ Rate limit reached. Please wait 60 seconds and try again.".
Proof.
  apply (quota_error_shown_as_rate_limit "gemini-2.5-flash-preview-tts"
           quotaError Automatic (newItem (form "first") "job-1" 1 0));
    vm_compute; reflexivity.
Defined.

End SpeechResults.

(** ** The queue effect on arbitrary lists *)

Section DrainAll.

Lemma pendingJobs_head l :
  findPending l = hd_error (pendingJobs l).
Proof.
  unfold findPending, pendingJobs.
  induction l as [| a l IH]; cbn [find filter]; [reflexivity |].
  destruct (ItemStatus_eqb (status a) PENDING); [reflexivity | exact IH].
Qed.

Lemma updateById_compose target f g l :
  (forall i, id (g i) = id i) ->
  updateById target f (updateById target g l)
  = updateById target (fun i => f (g i)) l.
Proof.
  intros Hg. unfold updateById. rewrite map_map. apply map_ext. intros i.
  destruct (id i =? target)%string eqn:E; [| rewrite E; reflexivity].
  rewrite Hg, E. reflexivity.
Qed.

Lemma picked_id key i : id (picked key i) = id i.
Proof. unfold picked. destruct (truthy key); reflexivity. Qed.

Lemma picked_not_pending key i :
  ItemStatus_eqb (status (picked key i)) PENDING = false.
Proof. unfold picked. destruct (truthy key); reflexivity. Qed.

(** Marking the first [PENDING] job removes it from the [PENDING] ones and
    touches no other record. *)
Lemma pick_first l x g :
  NoDup (map id l) -> findPending l = Some x ->
  id (g x) = id x -> ItemStatus_eqb (status (g x)) PENDING = false ->
  pendingJobs l = x :: pendingJobs (updateById (id x) g l)
  /\ markPending g (updateById (id x) g l) = markPending g l.
Proof.
  intros Hnd Hfind Hid Hst.
  destruct (findPending_Some _ _ Hfind) as [Hx Hpx].
  split.
  - revert Hnd Hfind Hx. unfold findPending, pendingJobs.
    induction l as [| a l IH]; intros Hnd Hfind Hx; [discriminate |].
    cbn [map] in Hnd. inversion Hnd as [| ? ? Ha Hnd']; subst.
    cbn [find filter updateById map] in *.
    destruct (ItemStatus_eqb (status a) PENDING) eqn:Ea.
    + inversion Hfind; subst a. rewrite String.eqb_refl. cbn [filter].
      rewrite Hst. f_equal.
      change (map (fun i => if (id i =? id x)%string then g i else i) l)
        with (updateById (id x) g l).
      rewrite updateById_absent; [reflexivity |].
      intros i Hi Heq. apply Ha. rewrite <- Heq. apply in_map. exact Hi.
    + assert (Hxl : In x l).
      { apply find_some in Hfind. exact (proj1 Hfind). }
      assert (Hne : (id a =? id x)%string = false).
      { apply String.eqb_neq. intros Heq. apply Ha. rewrite Heq.
        apply in_map. exact Hxl. }
      rewrite Hne. cbn [filter]. rewrite Ea.
      apply IH; assumption.
  - unfold markPending, updateById. rewrite map_map. apply map_ext_in.
    intros i Hi. destruct (id i =? id x)%string eqn:E; [| reflexivity].
    apply String.eqb_eq in E.
    rewrite (same_id_same_item l i x Hnd Hi Hx E), Hst, Hpx. reflexivity.
Qed.

(** One run of the effect with the flag set and a job waiting. *)
Lemma effect_picks h x :
  isProcessing h = true -> effectDue h = true ->
  findPending (items h) = Some x ->
  exists h1,
    step QueueEffect h = Some h1
    /\ selected QueueEffect h = [id x]
    /\ items h1 = updateById (id x) (picked (userApiKey h)) (items h)
    /\ inflight h1
       = inflight h
         ++ (if truthy (userApiKey h) then [mkCall Automatic x] else [])
    /\ isProcessing h1 = true /\ effectDue h1 = true
    /\ userApiKey h1 = userApiKey h
    /\ objectURLs h1 = objectURLs h /\ revoked h1 = revoked h.
Proof.
  intros Hproc Hdue Hfind.
  cbn [step selected]. rewrite Hdue, Hproc, Hfind. cbn [andb].
  unfold queueEffect, processQueue.
  cbn [isProcessing clearEffectDue items]. rewrite Hproc, Hfind. cbn [negb].
  cbn zeta. cbn [userApiKey setItems clearEffectDue]. unfold picked.
  destruct (truthy (userApiKey h)).
  - eexists. split; [reflexivity |].
    cbn [items inflight isProcessing effectDue userApiKey objectURLs revoked
         startCall setItems clearEffectDue].
    repeat split; assumption.
  - eexists. split; [reflexivity |].
    cbn [items inflight isProcessing effectDue userApiKey objectURLs revoked
         setItems clearEffectDue].
    rewrite updateById_compose by reflexivity. rewrite app_nil_r.
    repeat split; assumption.
Qed.

(** As many runs of the effect as jobs are [PENDING], wherever they are
    in the list. *)
Lemma drain_all (n : nat) : forall h,
  NoDup (map id (items h)) ->
  isProcessing h = true -> effectDue h = true ->
  length (pendingJobs (items h)) = n ->
  exists h',
    run (repeat QueueEffect n) h = Some h'
    /\ selections (repeat QueueEffect n) h = map id (pendingJobs (items h))
    /\ items h' = markPending (picked (userApiKey h)) (items h)
    /\ inflight h'
       = inflight h
         ++ (if truthy (userApiKey h)
             then map (mkCall Automatic) (pendingJobs (items h)) else [])
    /\ isProcessing h' = true /\ effectDue h' = true
    /\ userApiKey h' = userApiKey h
    /\ objectURLs h' = objectURLs h /\ revoked h' = revoked h.
Proof.
  induction n as [| n IH]; intros h Hnd Hproc Hdue Hlen.
  - exists h. apply length_zero_iff_nil in Hlen.
    rewrite Hlen. cbn [repeat run selections map].
    split; [reflexivity |]. split; [reflexivity |]. split.
    + unfold markPending. rewrite <- (map_id (items h)) at 1.
      apply map_ext_in. intros i Hi.
      destruct (ItemStatus_eqb (status i) PENDING) eqn:E; [| reflexivity].
      exfalso. assert (Hin : In i (pendingJobs (items h)))
        by (apply filter_In; split; assumption).
      rewrite Hlen in Hin. exact Hin.
    + destruct (truthy (userApiKey h)); rewrite app_nil_r; repeat split; assumption.
  - destruct (pendingJobs (items h)) as [| x rest] eqn:Hjobs; [discriminate |].
    assert (Hfind : findPending (items h) = Some x)
      by (rewrite pendingJobs_head, Hjobs; reflexivity).
    destruct (effect_picks h x Hproc Hdue Hfind)
      as (h1 & Hstep & Hsel & Hitems & Hcalls & Hproc1 & Hdue1 & Hkey1 & Hurls1 & Hrev1).
    destruct (pick_first (items h) x (picked (userApiKey h)) Hnd Hfind
                (picked_id _ x) (picked_not_pending _ x)) as [Hrest Hmark].
    rewrite Hjobs in Hrest. inversion Hrest as [Hrest'].
    assert (Hnd1 : NoDup (map id (items h1))).
    { rewrite Hitems, updateById_ids; [exact Hnd | apply picked_id]. }
    assert (Hlen1 : length (pendingJobs (items h1)) = n).
    { rewrite Hitems, <- Hrest'. cbn [length] in Hlen. lia. }
    destruct (IH h1 Hnd1 Hproc1 Hdue1 Hlen1)
      as (h' & Hrun & Hsels & Hitems' & Hcalls' & Hproc' & Hdue' & Hkey' & Hurls' & Hrev').
    exists h'. cbn [repeat run selections]. rewrite Hstep, Hsel, Hsels, Hrun.
    split; [reflexivity |].
    split; [rewrite Hitems, <- Hrest'; reflexivity |].
    split; [rewrite Hitems', Hkey1, Hitems; exact Hmark |].
    split.
    { rewrite Hcalls', Hcalls, Hkey1, Hitems, <- Hrest'.
      destruct (truthy (userApiKey h)); rewrite <- app_assoc; reflexivity. }
    repeat split; congruence.
Qed.

(** With no job [PENDING], the effect clears the processing flag. *)
Lemma effect_stops h :
  isProcessing h = true -> effectDue h = true ->
  pendingJobs (items h) = [] ->
  step QueueEffect h
  = Some (setIsProcessing false (clearEffectDue h)).
Proof.
  intros Hproc Hdue Hnone.
  assert (Hfind : findPending (items h) = None)
    by (rewrite pendingJobs_head, Hnone; reflexivity).
  cbn [step]. rewrite Hdue. unfold queueEffect, processQueue.
  cbn [isProcessing clearEffectDue items]. rewrite Hproc, Hfind. reflexivity.
Qed.

Lemma markPending_none g l :
  (forall i, ItemStatus_eqb (status (g i)) PENDING = false) ->
  pendingJobs (markPending g l) = [].
Proof.
  intros Hg. unfold pendingJobs, markPending.
  induction l as [| a l IH]; cbn [map filter]; [reflexivity |].
  destruct (ItemStatus_eqb (status a) PENDING) eqn:E.
  - rewrite Hg. exact IH.
  - rewrite E. exact IH.
Qed.

(** X10.  In a reachable state with the processing flag set, the effect
    due and a key loaded, as many runs of the queue effect as there are
    [PENDING] jobs ([pendingCount]), with no call settling in between,
    pick the [PENDING] jobs in list order wherever they stand in the list,
    mark exactly them [GENERATING], start one call for each in that order
    and leave none [PENDING]; the next run starts nothing and clears the
    processing flag. *)
Theorem queue_starts_all_pending_jobs (evs : list Event) (h : State) :
  run evs initial = Some h ->
  isProcessing h = true -> effectDue h = true ->
  truthy (userApiKey h) = true ->
  exists h' h'',
    run (repeat QueueEffect (pendingCount (items h))) h = Some h'
    /\ selections (repeat QueueEffect (pendingCount (items h))) h
       = map id (pendingJobs (items h))
    /\ items h' = markPending asGenerating (items h)
    /\ inflight h'
       = inflight h ++ map (mkCall Automatic) (pendingJobs (items h))
    /\ pendingCount (items h') = 0
    /\ step QueueEffect h' = Some h''
    /\ isProcessing h'' = false
    /\ items h'' = items h' /\ inflight h'' = inflight h'.
Proof.
  intros Hrun Hproc Hdue Hkey.
  destruct (drain_all (pendingCount (items h)) h (reachable_ids _ _ Hrun)
              Hproc Hdue eq_refl)
    as (h' & Hdrain & Hsels & Hitems & Hcalls & Hproc' & Hdue' & _).
  unfold picked in Hitems. rewrite Hkey in Hitems, Hcalls.
  assert (Hnone : pendingJobs (items h') = [])
    by (rewrite Hitems; apply markPending_none; reflexivity).
  exists h', (setIsProcessing false (clearEffectDue h')).
  split; [exact Hdrain |]. split; [exact Hsels |].
  split; [exact Hitems |]. split; [exact Hcalls |].
  split; [unfold pendingCount; fold (pendingJobs (items h')); rewrite Hnone; reflexivity |].
  split; [apply effect_stops; assumption |].
  repeat split.
Qed.

Lemma queue_starts_all_pending_jobs_witness :
  exists h',
    run [QueueEffect; QueueEffect; QueueEffect] (stateAfter queueStarted) = Some h'
    /\ map status (items h') = [GENERATING; GENERATING; GENERATING]
    /\ map (fun c => id (callItem c)) (inflight h') = ["job-3"; "job-2"; "job-1"].
Proof.
  destruct (queue_starts_all_pending_jobs queueStarted (stateAfter queueStarted))
    as (h' & h'' & Hrun & _ & Hitems & Hcalls & _);
    try (vm_compute; reflexivity).
  exists h'. split; [exact Hrun |].
  rewrite Hitems, Hcalls. split; vm_compute; reflexivity.
Defined.

(** X11.  Without a key, in a reachable state with the processing flag
    set and the effect due, the same runs start no call: every [PENDING]
    job, and no other, becomes [ERROR] with the message
    "No API key configured", which is shown as the API-key text; the next
    run clears the processing flag. *)
Theorem queue_without_key_fails_pending_jobs (evs : list Event) (h : State) :
  run evs initial = Some h ->
  isProcessing h = true -> effectDue h = true ->
  truthy (userApiKey h) = false ->
  exists h' h'',
    run (repeat QueueEffect (pendingCount (items h))) h = Some h'
    /\ items h'
       = markPending
           (fun i => asError "No API key configured" (asGenerating i)) (items h)
    /\ inflight h' = inflight h
    /\ (forall i,
          shownError (asError "No API key configured" (asGenerating i))
          = "🔑 API key issue. Please check your settings.")
    /\ step QueueEffect h' = Some h''
    /\ isProcessing h'' = false /\ items h'' = items h'.
Proof.
  intros Hrun Hproc Hdue Hkey.
  destruct (drain_all (pendingCount (items h)) h (reachable_ids _ _ Hrun)
              Hproc Hdue eq_refl)
    as (h' & Hdrain & _ & Hitems & Hcalls & Hproc' & Hdue' & _).
  unfold picked in Hitems. rewrite Hkey in Hitems, Hcalls.
  rewrite app_nil_r in Hcalls.
  assert (Hnone : pendingJobs (items h') = [])
    by (rewrite Hitems; apply markPending_none; reflexivity).
  exists h', (setIsProcessing false (clearEffectDue h')).
  split; [exact Hdrain |]. split; [exact Hitems |]. split; [exact Hcalls |].
  split; [intros i; vm_compute; reflexivity |].
  split; [apply effect_stops; assumption |].
  split; reflexivity.
Qed.

Lemma queue_without_key_fails_pending_jobs_witness :
  exists h',
    run [QueueEffect; QueueEffect] (stateAfter startedWithoutKey) = Some h'
    /\ map (fun i => (id i, status i, error i)) (items h')
       = [("job-3", ERROR, Some "No API key configured");
          ("job-2", ERROR, Some "No API key configured");
          ("job-1", ERROR, Some "No API key configured")]
    /\ inflight h' = [].
Proof.
  destruct (queue_without_key_fails_pending_jobs startedWithoutKey
              (stateAfter startedWithoutKey))
    as (h' & h'' & Hrun & Hitems & Hcalls & _);
    try (vm_compute; reflexivity).
  exists h'. split; [exact Hrun |].
  rewrite Hitems, Hcalls. split; vm_compute; reflexivity.
Defined.

End DrainAll.

(** ** Enqueue followed by delete *)

Section EnqueueDelete.

Lemma filter_absent target l :
  (forall i, In i l -> id i <> target) ->
  filter (fun i => negb (id i =? target)%string) l = l.
Proof.
  induction l as [| a l IH]; intros Habs; cbn [filter]; [reflexivity |].
  assert (Ha : (id a =? target)%string = false)
    by (apply String.eqb_neq, Habs; left; reflexivity).
  rewrite Ha. cbn [negb]. f_equal. apply IH.
  intros i Hi. apply Habs. right. exact Hi.
Qed.

(** X13.  Deleting a job right after it was enqueued undoes the enqueue:
    for an id that no job of the list carries, [handleDelete] after
    [handleAddToQueue] gives back the list, revokes nothing and starts or
    drops no call, whether the text was blank or not. *)
Theorem delete_undoes_enqueue
    (h : State) (f : Form) (uuid : string) (now : Z) :
  ~ In uuid (map id (items h)) ->
  items (handleDelete uuid (handleAddToQueue f uuid now h)) = items h
  /\ revoked (handleDelete uuid (handleAddToQueue f uuid now h)) = revoked h
  /\ objectURLs (handleDelete uuid (handleAddToQueue f uuid now h)) = objectURLs h
  /\ inflight (handleDelete uuid (handleAddToQueue f uuid now h)) = inflight h.
Proof.
  intros Hfresh.
  assert (Habs : forall i, In i (items h) -> id i <> uuid).
  { intros i Hi Heq. apply Hfresh. rewrite <- Heq. apply in_map. exact Hi. }
  unfold handleAddToQueue.
  destruct (trim (formText f) =? "")%string.
  - assert (Hfind : findById uuid (items h) = None).
    { destruct (findById uuid (items h)) as [i |] eqn:E; [| reflexivity].
      destruct (findById_Some _ _ _ E) as [Hi Hid].
      exfalso. exact (Habs i Hi Hid). }
    unfold handleDelete, handleDelete_remove, handleDelete_release.
    rewrite Hfind. cbn [items revoked objectURLs inflight setItems].
    rewrite filter_absent by exact Habs. repeat split.
  - set (item := newItem f uuid now (length (items h))).
    set (g := setItems (fun prev => item :: prev) h).
    assert (Hfind : findById uuid (items g) = Some item).
    { unfold findById. cbn [items setItems g find].
      change (id item) with uuid. rewrite String.eqb_refl. reflexivity. }
    assert (Hrel : handleDelete_release uuid g = g)
      by (unfold handleDelete_release; rewrite Hfind; reflexivity).
    unfold handleDelete, handleDelete_remove. rewrite Hrel.
    cbn [items revoked objectURLs inflight setItems g filter].
    change (id item) with uuid. rewrite String.eqb_refl. cbn [negb].
    rewrite filter_absent by exact Habs. repeat split.
Qed.

Lemma delete_undoes_enqueue_witness :
  items (handleDelete "job-4"
           (handleAddToQueue (form "fourth") "job-4" 4 (stateAfter overlapRun)))
  = items (stateAfter overlapRun).
Proof.
  apply (delete_undoes_enqueue (stateAfter overlapRun) (form "fourth") "job-4" 4).
  vm_compute. intros [H | [H | [H | []]]]; discriminate H.
Defined.

End EnqueueDelete.

(** ** The order in which calls settle *)

Section SettlementOrder.

Lemma settle_step h k c o :
  nth_error (inflight h) k = Some c ->
  step (Settle k o) h
  = if canSettle o h then Some (continuation c o (dropCall k h)) else None.
Proof.
  intros Hc. cbn [step]. rewrite Hc. destruct o as [uuid | err]; reflexivity.
Qed.

Lemma continuation_items c o g :
  items (continuation c o g)
  = updateById (id (callItem c)) (settledAs c o) (items g).
Proof. destruct o; reflexivity. Qed.

Lemma continuation_inflight c o g :
  inflight (continuation c o g) = inflight g.
Proof. destruct o; reflexivity. Qed.

Lemma continuation_revoked c o g : revoked (continuation c o g) = revoked g.
Proof. destruct o; reflexivity. Qed.

Lemma continuation_urls c o g :
  objectURLs (continuation c o g)
  = objectURLs g
    ++ match o with
       | Fulfilled uuid => ["blob:" ++ uuid]%string
       | Failed _ => []
       end.
Proof. destruct o; cbn; [reflexivity | rewrite app_nil_r; reflexivity]. Qed.

Lemma settledAs_id c o i : id (settledAs c o i) = id i.
Proof. destruct o; reflexivity. Qed.

Lemma updateById_commute t1 t2 f g l :
  t1 <> t2 ->
  (forall i, id (f i) = id i) -> (forall i, id (g i) = id i) ->
  updateById t1 f (updateById t2 g l) = updateById t2 g (updateById t1 f l).
Proof.
  intros Hne Hf Hg. unfold updateById. rewrite !map_map. apply map_ext.
  intros i.
  destruct (id i =? t2)%string eqn:E2; destruct (id i =? t1)%string eqn:E1;
    rewrite ?Hf, ?Hg, ?E1, ?E2; try reflexivity.
  apply String.eqb_eq in E1, E2. congruence.
Qed.

Lemma dropNth_after {A : Type} (l : list A) : forall k1 k2,
  k1 < k2 -> nth_error (dropNth k1 l) (k2 - 1) = nth_error l k2.
Proof.
  unfold dropNth.
  induction l as [| a l IH]; intros k1 k2 Hlt.
  - rewrite firstn_nil, skipn_nil. cbn [app].
    destruct k2; [lia |]. destruct (S k2 - 1); reflexivity.
  - destruct k2 as [| k2]; [lia |]. cbn [Nat.sub]. rewrite Nat.sub_0_r.
    destruct k1 as [| k1]; [reflexivity |].
    cbn [firstn skipn app]. destruct k2 as [| k2]; [lia |].
    pose proof (IH k1 (S k2) ltac:(lia)) as H.
    cbn [Nat.sub] in H. rewrite Nat.sub_0_r in H. exact H.
Qed.

Lemma dropNth_before {A : Type} (l : list A) : forall k1 k2,
  k1 < k2 -> nth_error (dropNth k2 l) k1 = nth_error l k1.
Proof.
  unfold dropNth.
  induction l as [| a l IH]; intros k1 k2 Hlt.
  - rewrite firstn_nil, skipn_nil. reflexivity.
  - destruct k2 as [| k2]; [lia |]. cbn [firstn skipn app].
    destruct k1 as [| k1]; [reflexivity |].
    cbn [nth_error]. apply IH. lia.
Qed.

Lemma dropNth_dropNth {A : Type} (l : list A) : forall k1 k2,
  k1 < k2 -> dropNth (k2 - 1) (dropNth k1 l) = dropNth k1 (dropNth k2 l).
Proof.
  induction l as [| a l IH]; intros k1 k2 Hlt.
  - unfold dropNth. rewrite ?firstn_nil, ?skipn_nil. cbn [app].
    rewrite ?firstn_nil, ?skipn_nil. reflexivity.
  - destruct k2 as [| k2]; [lia |]. cbn [Nat.sub]. rewrite Nat.sub_0_r.
    destruct k1 as [| k1].
    + unfold dropNth. cbn [firstn skipn app]. reflexivity.
    + destruct k2 as [| k2]; [lia |].
      change (dropNth (S k1) (a :: l)) with (a :: dropNth k1 l).
      change (dropNth (S (S k2)) (a :: l)) with (a :: dropNth (S k2) l).
      change (dropNth (S k2) (a :: dropNth k1 l))
        with (a :: dropNth k2 (dropNth k1 l)).
      change (dropNth (S k1) (a :: dropNth (S k2) l))
        with (a :: dropNth k1 (dropNth (S k2) l)).
      f_equal. rewrite <- (IH k1 (S k2)) by lia.
      cbn [Nat.sub]. rewrite Nat.sub_0_r. reflexivity.
Qed.

Lemma mem_app x l1 l2 : mem x (l1 ++ l2) = mem x l1 || mem x l2.
Proof. unfold mem. apply existsb_app. Qed.

(** X14.  When two outstanding calls for different jobs settle one after
    the other, the other order of the two settlements is possible as well
    and ends with the same job list, the same outstanding calls and the
    same revoked URLs. *)
Theorem settlement_order_is_irrelevant
    (h a : State) (k1 k2 : nat) (c1 c2 : Call) (o1 o2 : Outcome) :
  k1 < k2 ->
  nth_error (inflight h) k1 = Some c1 ->
  nth_error (inflight h) k2 = Some c2 ->
  id (callItem c1) <> id (callItem c2) ->
  run [Settle k1 o1; Settle (k2 - 1) o2] h = Some a ->
  exists b,
    run [Settle k2 o2; Settle k1 o1] h = Some b
    /\ items b = items a
    /\ inflight b = inflight a
    /\ revoked b = revoked a.
Proof.
  intros Hlt Hc1 Hc2 Hne Hrun.
  cbn [run] in Hrun. rewrite (settle_step h k1 c1 o1 Hc1) in Hrun.
  destruct (canSettle o1 h) eqn:Hcan1; [| discriminate].
  set (h1 := continuation c1 o1 (dropCall k1 h)) in *.
  assert (Hc2' : nth_error (inflight h1) (k2 - 1) = Some c2).
  { unfold h1. rewrite continuation_inflight. cbn [inflight dropCall].
    rewrite <- Hc2. apply (dropNth_after (inflight h) k1 k2 Hlt). }
  rewrite (settle_step h1 (k2 - 1) c2 o2 Hc2') in Hrun.
  destruct (canSettle o2 h1) eqn:Hcan2; [| discriminate].
  inversion Hrun; subst a. clear Hrun.
  assert (Hurls1 : objectURLs h1
                   = objectURLs h
                     ++ match o1 with
                        | Fulfilled uuid => ["blob:" ++ uuid]%string
                        | Failed _ => []
                        end)
    by (unfold h1; rewrite continuation_urls; reflexivity).
  assert (Hrev1 : revoked h1 = revoked h)
    by (unfold h1; rewrite continuation_revoked; reflexivity).
  assert (Hcan2h : canSettle o2 h = true).
  { destruct o2 as [u2 | e2]; [| reflexivity].
    cbn [canSettle] in *. unfold freshURL in *.
    rewrite Hurls1, Hrev1, mem_app in Hcan2.
    apply andb_prop in Hcan2. destruct Hcan2 as [Hu Hr].
    rewrite negb_orb in Hu. apply andb_prop in Hu. destruct Hu as [Hu _].
    rewrite Hu, Hr. reflexivity. }
  set (h2 := continuation c2 o2 (dropCall k2 h)).
  assert (Hcan1h2 : canSettle o1 h2 = true).
  { destruct o1 as [u1 | e1]; [| reflexivity].
    cbn [canSettle] in *. unfold freshURL in *.
    unfold h2. rewrite continuation_urls, continuation_revoked.
    cbn [objectURLs revoked dropCall]. rewrite mem_app.
    apply andb_prop in Hcan1. destruct Hcan1 as [Hu Hr].
    rewrite Hr, negb_orb, Hu. cbn [andb]. rewrite andb_true_r.
    destruct o2 as [u2 | e2]; [| reflexivity].
    cbn [canSettle] in Hcan2. unfold freshURL in Hcan2.
    rewrite Hurls1, mem_app in Hcan2.
    apply andb_prop in Hcan2. destruct Hcan2 as [Hu2 _].
    rewrite negb_orb in Hu2. apply andb_prop in Hu2. destruct Hu2 as [_ Hu2].
    cbn [mem existsb] in Hu2 |- *. rewrite orb_false_r in Hu2 |- *.
    rewrite String.eqb_sym. exact Hu2. }
  assert (Hc1' : nth_error (inflight h2) k1 = Some c1).
  { unfold h2. rewrite continuation_inflight. cbn [inflight dropCall].
    rewrite <- Hc1. apply (dropNth_before (inflight h) k1 k2 Hlt). }
  exists (continuation c1 o1 (dropCall k1 h2)).
  split.
  { cbn [run]. rewrite (settle_step h k2 c2 o2 Hc2), Hcan2h. fold h2.
    rewrite (settle_step h2 k1 c1 o1 Hc1'), Hcan1h2. reflexivity. }
  rewrite !continuation_items, !continuation_inflight, !continuation_revoked.
  cbn [items inflight revoked dropCall]. unfold h1, h2.
  rewrite !continuation_items, !continuation_inflight, !continuation_revoked.
  cbn [items inflight revoked dropCall].
  split; [apply updateById_commute; auto using settledAs_id |].
  split; [| reflexivity].
  symmetry. apply (dropNth_dropNth (inflight h) k1 k2 Hlt).
Qed.

Lemma settlement_order_is_irrelevant_witness :
  exists a b,
    run [Settle 0 (Fulfilled "u1"); Settle (1 - 1) (Failed Scenario.quotaError)]
      (Scenario.stateAfter Scenario.overlapRun) = Some a
    /\ run [Settle 1 (Failed Scenario.quotaError); Settle 0 (Fulfilled "u1")]
         (Scenario.stateAfter Scenario.overlapRun) = Some b
    /\ items b = items a
    /\ inflight b = inflight a
    /\ revoked b = revoked a.
Proof.
  eexists. 
  assert (Hrun : run [Settle 0 (Fulfilled "u1");
                      Settle (1 - 1) (Failed Scenario.quotaError)]
                   (Scenario.stateAfter Scenario.overlapRun)
                 = Some (Scenario.stateAfter
                           (Scenario.overlapRun
                              ++ [Settle 0 (Fulfilled "u1");
                                  Settle 0 (Failed Scenario.quotaError)])))
    by (vm_compute; reflexivity).
  destruct (nth_error (inflight (Scenario.stateAfter Scenario.overlapRun)) 0)
    as [c1 |] eqn:Hc1; [| vm_compute in Hc1; discriminate].
  destruct (nth_error (inflight (Scenario.stateAfter Scenario.overlapRun)) 1)
    as [c2 |] eqn:Hc2; [| vm_compute in Hc2; discriminate].
  assert (Hne : id (callItem c1) <> id (callItem c2)).
  { vm_compute in Hc1, Hc2. inversion Hc1. inversion Hc2. subst c1 c2.
    vm_compute. discriminate. }
  destruct (settlement_order_is_irrelevant _ _ 0 1 c1 c2 _ _
              (Nat.lt_0_succ 0) Hc1 Hc2 Hne Hrun) as [b Hb].
  exists b. split; [exact Hrun | exact Hb].
Defined.

End SettlementOrder.

(** ** Export names, counters and the profile name *)

Section ExportAndProfile.

Lemma slice0_length n : forall s,
  String.length (slice0 n s) = Nat.min n (String.length s).
Proof.
  unfold slice0.
  induction n as [| n IH]; intros s.
  - destruct s; reflexivity.
  - destruct s as [| c rest]; [reflexivity |].
    cbn [substring String.length Nat.min]. rewrite IH. reflexivity.
Qed.

Lemma replaceUnsafe_length s :
  String.length (replaceUnsafe s) = String.length s.
Proof.
  induction s as [| c rest IH]; [reflexivity |].
  cbn [replaceUnsafe String.length]. rewrite IH. reflexivity.
Qed.

Lemma replaceUnsafe_chars s :
  Forall (fun c => isAlnum c = true \/ c = "_"%char)
    (list_ascii_of_string (replaceUnsafe s)).
Proof.
  induction s as [| c rest IH]; [constructor |].
  cbn [replaceUnsafe list_ascii_of_string]. constructor; [| exact IH].
  destruct (isAlnum c) eqn:E; [left; exact E | right; reflexivity].
Qed.

Lemma or_else_kept s d : s <> "" -> or_else s d = s.
Proof.
  intros Hne. unfold or_else. apply String.eqb_neq in Hne. rewrite Hne.
  reflexivity.
Qed.

(** X15.  For every job of a reachable state the two download names are
    built from its label (the fallback to the first eight characters of
    the id is never used), and the text part of the name in the ZIP file
    has between 1 and 20 characters, each of them a letter, a digit or an
    underscore. *)
Theorem export_names_of_reachable_jobs
    (evs : list Event) (h : State) (i : AudioItem) :
  run evs initial = Some h -> In i (items h) ->
  exists l,
    label i = Some l /\ l <> ""
    /\ downloadName i = ("gemini-tts-" ++ l ++ ".wav")%string
    /\ zipFileName i = (l ++ "_" ++ safeText i ++ ".wav")%string
    /\ String.length (safeText i) = Nat.min 20 (String.length (text i))
    /\ (1 <= String.length (safeText i) <= 20)%nat
    /\ Forall (fun c => isAlnum c = true \/ c = "_"%char)
         (list_ascii_of_string (safeText i)).
Proof.
  intros Hrun Hin.
  pose proof (proj1 (Forall_forall _ _) (reachable_entered evs h Hrun) i Hin)
    as [[Htext _] [[l [Hl Hne]] _]].
  assert (Hlen : String.length (safeText i)
                 = Nat.min 20 (String.length (text i))).
  { unfold safeText. rewrite replaceUnsafe_length. apply slice0_length. }
  exists l. split; [exact Hl |]. split; [exact Hne |].
  split; [| split; [| split; [exact Hlen | split]]].
  - unfold downloadName. rewrite Hl. cbn [orDefault].
    rewrite (or_else_kept l _ Hne). reflexivity.
  - unfold zipFileName, safeLabel. rewrite Hl. cbn [orDefault].
    rewrite (or_else_kept l _ Hne). reflexivity.
  - rewrite Hlen. destruct (text i) as [| c rest]; [congruence |].
    cbn [String.length]. lia.
  - unfold safeText. apply replaceUnsafe_chars.
Qed.

Lemma export_names_of_reachable_jobs_witness :
  exists l,
    label (newItem newsForm "job-1" 1 0) = Some l /\ l <> ""
    /\ downloadName (newItem newsForm "job-1" 1 0)
       = ("gemini-tts-" ++ l ++ ".wav")%string
    /\ zipFileName (newItem newsForm "job-1" 1 0)
       = (l ++ "_" ++ safeText (newItem newsForm "job-1" 1 0) ++ ".wav")%string
    /\ String.length (safeText (newItem newsForm "job-1" 1 0))
       = Nat.min 20 (String.length (text (newItem newsForm "job-1" 1 0)))
    /\ (1 <= String.length (safeText (newItem newsForm "job-1" 1 0)) <= 20)%nat
    /\ Forall (fun c => isAlnum c = true \/ c = "_"%char)
         (list_ascii_of_string (safeText (newItem newsForm "job-1" 1 0))).
Proof.
  apply (export_names_of_reachable_jobs newsRun (stateAfter newsRun)).
  - vm_compute. reflexivity.
  - vm_compute. left. reflexivity.
Defined.

Lemma filter_ext_Forall {A : Type} (f g : A -> bool) (P : A -> Prop) l :
  (forall x, P x -> f x = g x) -> Forall P l -> filter f l = filter g l.
Proof.
  intros Hfg Hall. induction Hall as [| x l Hx _ IH]; [reflexivity |].
  cbn [filter]. rewrite (Hfg x Hx), IH. reflexivity.
Qed.

(** X16.  In a reachable state the jobs that the filter at the head of
    [handleDownloadAll] selects are exactly the [SUCCESS] jobs, in list
    order: its test of [audioUrl] removes none, every selected job has an
    [audioUrl] that is not empty, and there are [successCount] of them,
    the number shown on the button.  (Which files the archive then holds
    is decided by [fetch] and by the file names, and is not stated.) *)
Theorem download_all_selects_every_success (evs : list Event) (h : State) :
  run evs initial = Some h ->
  successItems (items h)
  = filter (fun i => ItemStatus_eqb (status i) SUCCESS) (items h)
  /\ length (successItems (items h)) = successCount (items h)
  /\ Forall (fun i => truthy (audioUrl i) = true) (successItems (items h)).
Proof.
  intros Hrun.
  pose proof (reachable_items_cover evs h Hrun) as Hcover.
  assert (Heq : successItems (items h)
                = filter (fun i => ItemStatus_eqb (status i) SUCCESS) (items h)).
  { unfold successItems.
    apply (filter_ext_Forall _ _ fieldsCoverStatus); [| exact Hcover].
    intros i [Hs _]. destruct (status i) eqn:E; cbn [ItemStatus_eqb andb];
      try reflexivity.
    rewrite (Hs eq_refl). reflexivity. }
  split; [exact Heq |]. split; [rewrite Heq; reflexivity |].
  unfold successItems. apply Forall_forall. intros i Hi.
  apply filter_In in Hi. destruct Hi as [_ Hi].
  apply andb_prop in Hi. exact (proj2 Hi).
Qed.

Lemma download_all_selects_every_success_witness :
  length (successItems (items (stateAfter regenerateDone)))
  = successCount (items (stateAfter regenerateDone)).
Proof.
  apply (download_all_selects_every_success regenerateDone
           (stateAfter regenerateDone)).
  vm_compute. reflexivity.
Defined.

Lemma truthy_orDefault o d : truthy o = true -> orDefault o d <> "".
Proof.
  destruct o as [s |]; cbn [truthy orDefault]; [| discriminate].
  intros Hs. apply negb_true_iff in Hs. unfold or_else. rewrite Hs.
  apply String.eqb_neq. exact Hs.
Qed.

(** X17.  [getUserDisplayName] never returns the empty string: an empty
    [full_name], an empty [name] and an address with nothing before its
    "@" are passed over, down to "User". *)
Theorem display_name_never_empty (user : option User) :
  getUserDisplayName user <> "".
Proof.
  destruct user as [u |]; [| discriminate]. unfold getUserDisplayName.
  destruct (truthy (full_name (user_metadata u))) eqn:Hfull.
  - apply truthy_orDefault. exact Hfull.
  - destruct (truthy (name (user_metadata u))) eqn:Hname.
    + apply truthy_orDefault. exact Hname.
    + unfold or_else.
      destruct (beforeAt (email u) =? "")%string eqn:E; [discriminate |].
      apply String.eqb_neq. exact E.
Qed.

End ExportAndProfile.

(** ** The voice list *)

Section VoiceList.

Lemma includes_empty s : includes s "" = true.
Proof. destruct s; reflexivity. Qed.

Lemma prefix_refl s : prefix s s = true.
Proof.
  induction s as [| c rest IH]; [reflexivity |].
  cbn [prefix]. destruct (ascii_dec c c); [exact IH | congruence].
Qed.

Lemma includes_refl s : includes s s = true.
Proof. destruct s; cbn [includes]; rewrite prefix_refl; reflexivity. Qed.

Lemma prefix_app_l t u : forall s,
  prefix (t ++ u) s = true -> prefix t s = true.
Proof.
  induction t as [| c t IH]; intros s H; [destruct s; reflexivity |].
  destruct s as [| d s]; [discriminate H |].
  cbn [String.append prefix] in H |- *.
  destruct (ascii_dec c d); [apply IH; exact H | discriminate H].
Qed.

Lemma includes_app_l t u : forall s,
  includes s (t ++ u) = true -> includes s t = true.
Proof.
  induction s as [| d s IH]; intros H; cbn [includes] in H |- *.
  - rewrite orb_false_r in H |- *. exact (prefix_app_l t u _ H).
  - apply orb_true_iff in H. apply orb_true_iff.
    destruct H as [H | H]; [left; exact (prefix_app_l t u _ H) |].
    right. apply IH. exact H.
Qed.

Lemma toLowerCase_app s t :
  toLowerCase (s ++ t) = (toLowerCase s ++ toLowerCase t)%string.
Proof.
  induction s as [| c s IH]; [reflexivity |].
  cbn [String.append toLowerCase]. rewrite IH. reflexivity.
Qed.

Lemma filter_all {A : Type} (f : A -> bool) l :
  (forall x, f x = true) -> filter f l = l.
Proof.
  intros Hf. induction l as [| x l IH]; [reflexivity |].
  cbn [filter]. rewrite Hf, IH. reflexivity.
Qed.

(** X18.  With an empty search field the list shows every voice, in the
    order of the table. *)
Theorem empty_search_lists_every_voice (voices : list VoiceOption) :
  filteredVoices voices "" = voices.
Proof.
  unfold filteredVoices. apply filter_all. intros v. unfold matchesSearch.
  cbn [toLowerCase]. rewrite includes_empty. reflexivity.
Qed.

(** X19.  A voice of the list is found by its own name, and by any of its
    tags, in whatever capitalisation the search is typed. *)
Theorem voice_found_by_name_or_tag
    (voices : list VoiceOption) (v : VoiceOption) (search : string) :
  In v voices ->
  toLowerCase search = toLowerCase (voiceName v)
  \/ (exists ts tag, tags v = Some ts /\ In tag ts
                     /\ toLowerCase search = toLowerCase tag) ->
  In v (filteredVoices voices search).
Proof.
  intros Hin Hsearch. unfold filteredVoices. apply filter_In.
  split; [exact Hin |]. unfold matchesSearch. cbv zeta.
  destruct Hsearch as [-> | [ts [tag [Hts [Htag ->]]]]].
  - rewrite includes_refl. reflexivity.
  - rewrite Hts. apply orb_true_iff. right. apply existsb_exists.
    exists tag. split; [exact Htag | apply includes_refl].
Qed.

Lemma voice_found_by_name_or_tag_witness :
  In (geminiVoice "Kore" Female "Firm" "Middle pitch")
    (filteredVoices GEMINI_VOICES "FIRM").
Proof.
  apply (voice_found_by_name_or_tag GEMINI_VOICES
           (geminiVoice "Kore" Female "Firm" "Middle pitch") "FIRM").
  - vm_compute. do 3 right. left. reflexivity.
  - right. exists ["Firm"], "Firm". vm_compute. auto.
Defined.

(** X20.  Typing further characters into the search field never brings
    a voice back: the voices listed for a longer search are among those
    listed for the search it extends. *)
Theorem longer_search_narrows
    (voices : list VoiceOption) (search more : string) (v : VoiceOption) :
  In v (filteredVoices voices (search ++ more)) ->
  In v (filteredVoices voices search).
Proof.
  unfold filteredVoices. rewrite !filter_In. intros [Hin Hm].
  split; [exact Hin |]. unfold matchesSearch in *. cbv zeta in *.
  rewrite toLowerCase_app in Hm.
  apply orb_true_iff in Hm. apply orb_true_iff.
  destruct Hm as [Hm | Hm]; [left; exact (includes_app_l _ _ _ Hm) |].
  right. destruct (tags v) as [ts |]; [| discriminate Hm].
  apply existsb_exists in Hm. destruct Hm as [tag [Htag Hm]].
  apply existsb_exists. exists tag.
  split; [exact Htag | exact (includes_app_l _ _ _ Hm)].
Qed.

Lemma longer_search_narrows_witness :
  In (geminiVoice "Kore" Female "Firm" "Middle pitch")
    (filteredVoices GEMINI_VOICES "ko").
Proof.
  apply (longer_search_narrows GEMINI_VOICES "ko" "re").
  vm_compute. left. reflexivity.
Defined.

Lemma find_unique_id (voices : list VoiceOption) (v : VoiceOption) :
  NoDup (map voiceId voices) -> In v voices ->
  find (fun w => (voiceId w =? voiceId v)%string) voices = Some v.
Proof.
  induction voices as [| w rest IH]; intros Hnd Hin; [destruct Hin |].
  cbn [map] in Hnd. inversion Hnd as [| ? ? Hnotin Hrest]; subst.
  cbn [find]. destruct Hin as [-> | Hin].
  - rewrite String.eqb_refl. reflexivity.
  - destruct (voiceId w =? voiceId v)%string eqn:E; [| exact (IH Hrest Hin)].
    apply String.eqb_eq in E. exfalso. apply Hnotin. rewrite E.
    apply in_map_iff. exists v. split; [reflexivity | exact Hin].
Qed.

(** X21.  With pairwise distinct voice ids, the voice shown as selected
    is the voice of the list whose id is selected; for an id that no
    voice of the list has, it is the first voice of the list. *)
Theorem selected_voice_by_id (voices : list VoiceOption) (selectedVoiceId : string) :
  NoDup (map voiceId voices) ->
  (forall v, In v voices -> voiceId v = selectedVoiceId ->
             selectedVoice voices selectedVoiceId = Some v)
  /\ (~ In selectedVoiceId (map voiceId voices) ->
      selectedVoice voices selectedVoiceId = hd_error voices).
Proof.
  intros Hnd. split.
  - intros v Hin <-. unfold selectedVoice.
    rewrite (find_unique_id voices v Hnd Hin). reflexivity.
  - intros Hnot. unfold selectedVoice.
    destruct (find (fun v => (voiceId v =? selectedVoiceId)%string) voices)
      as [w |] eqn:Hfind; [| reflexivity].
    apply find_some in Hfind. destruct Hfind as [Hin E].
    apply String.eqb_eq in E. exfalso. apply Hnot. rewrite <- E.
    apply in_map_iff. exists w. split; [reflexivity | exact Hin].
Qed.

Lemma GEMINI_VOICES_ids : NoDup (map voiceId GEMINI_VOICES).
Proof.
  vm_compute.
  repeat (constructor; [cbn [In]; intuition discriminate |]).
  constructor.
Qed.

Lemma selected_voice_by_id_witness :
  selectedVoice GEMINI_VOICES "Kore"
  = Some (geminiVoice "Kore" Female "Firm" "Middle pitch").
Proof.
  apply (proj1 (selected_voice_by_id GEMINI_VOICES "Kore" GEMINI_VOICES_ids)).
  - vm_compute. do 3 right. left. reflexivity.
  - reflexivity.
Defined.

End VoiceList.
